(** * Spaced-repetition flashcard scheduler: a model of [algorithm.ts]

    The six exported functions of [src/algorithm.ts] are embedded as Rocq
    functions and the statements of the specification are checked on them.

    Conventions of the model.
    - A JavaScript [number] that the code uses as a bucket number, a day, an
      index or a size is an integer and is modelled by [Z]; [%] is [Z.rem]
      (the sign follows the dividend) and [Math.pow(2, i)] is [2 ^ i].
      Sums of such numbers are taken in [Z]: the code adds doubles, which is
      the same as long as the numbers are not below -2^53 (see [exactSums]).
      The one true quotient of the program, the percentage of
      [computeProgress], is computed on binary64 floating-point numbers
      ([float]), as the code does.
    - A JavaScript string is the list of its UTF-16 code units.
    - A [Set<Flashcard>] is a mutable object: it lives in a store ([heap]) and
      is named by its address ([loc]); [new Set(...)] allocates a fresh
      address.  Its contents are a finite set of cards ([gset Flashcard]),
      the iteration order of a [Set] being observed by none of the functions.
    - A [Map<number, Set<Flashcard>>] is the list of its entries in insertion
      order, which is the order [forEach] visits them; an [Array] is the list
      of its elements, a hole being [None], and [Array(n)] throws a
      [RangeError] for a length above 2^32 - 1.  The maps and arrays the
      functions build are fresh and local, so they are passed as values.
    - Exceptions are values of [error]; a computation is a function from the
      store to either an exception or a result with the new store.
    - The memory of the engine is not bounded. *)

From Stdlib Require Import ZArith String Ascii.
From Stdlib Require Import PrimFloat SpecFloat FloatOps.
From stdpp Require Import base numbers list gmap.

Local Open Scope Z_scope.

(** ** Exceptions and the two monads *)

Inductive error : Type :=
  | TypeError      (* a property read on [undefined] *)
  | RangeError     (* [repeat] with a negative count, [Array(n)] with a
                      length that is not an array length *)
  | InvalidRef.    (* an address outside the store: no JavaScript program
                      reaches this, it only makes the model total *)

Inductive result (A : Type) : Type :=
  | Ok (a : A)
  | Throw (e : error).
Arguments Ok {A} a.
Arguments Throw {A} e.

#[global] Instance result_ret : MRet result := λ A a, Ok a.
#[global] Instance result_bind : MBind result := λ A B f r,
  match r with
  | Ok a => f a
  | Throw e => Throw e
  end.

(** ** Strings (the part of [String.prototype] the code calls) *)

Module Js.

Abbreviation jsstring := (list N).

(** A literal of the source, for text in the ASCII range. *)
Definition lit (s : string) : jsstring :=
  (λ a, N_of_ascii a) <$> list_ascii_of_string s.

(** ECMAScript [WhiteSpace] and [LineTerminator] code points, the ones
    [trim] removes. *)
Definition isWhiteSpace (u : N) : bool :=
  bool_decide (u ∈ [9; 10; 11; 12; 13; 32; 160; 5760; 8232; 8233; 8239;
                    8287; 12288; 65279]%N)
  || ((8192 <=? u)%N && (u <=? 8202)%N).

Fixpoint trimStart (s : jsstring) : jsstring :=
  match s with
  | [] => []
  | u :: s' => if isWhiteSpace u then trimStart s' else s
  end.

Definition trimEnd (s : jsstring) : jsstring :=
  reverse (trimStart (reverse s)).

Definition trim (s : jsstring) : jsstring := trimEnd (trimStart s).

(** [s.substring(start, end)]: both indices are clamped to [0, s.length]
    and swapped when [start > end]. *)
Definition substring (s : jsstring) (start end_ : Z) : jsstring :=
  let len := Z.of_nat (length s) in
  let a := Z.min (Z.max start 0) len in
  let b := Z.min (Z.max end_ 0) len in
  let from := Z.min a b in
  let to := Z.max a b in
  take (Z.to_nat (to - from)) (drop (Z.to_nat from) s).

(** [s.repeat(count)] throws a [RangeError] on a negative count. *)
Definition repeat (s : jsstring) (count : Z) : result jsstring :=
  if count <? 0 then Throw RangeError
  else Ok (mjoin (replicate (Z.to_nat count) s)).

(** The double nearest to an integer: how a count enters the floating-point
    arithmetic of the code. *)
Definition number (z : Z) : float :=
  SF2Prim (binary_normalize prec emax z 0 false).

(** Truthiness of a string: every string but the empty one. *)
Definition truthy (s : jsstring) : bool :=
  match s with [] => false | _ :: _ => true end.

End Js.

Abbreviation jsstring := Js.jsstring.

(** ** Data model ([flashcards.ts]) *)

(** Modelled from the spec: the class [Flashcard] of [flashcards.ts], a
    record with [front], [back], an optional [hint] and tags.  Two cards are
    the same only when they are the same object, whatever their text: [ident]
    stands for the identity of the object, and equality of records for [===]. *)
Record Flashcard : Type := mkFlashcard {
  ident : nat;
  front : jsstring;
  back : jsstring;
  hint : option jsstring;
  tags : list jsstring
}.

#[global] Instance Flashcard_eq_dec : EqDecision Flashcard.
Proof. solve_decision. Defined.

#[global] Instance Flashcard_countable : Countable Flashcard.
Proof.
  apply (inj_countable'
           (λ c, (ident c, front c, back c, hint c, tags c))
           (λ t, let '(i, f, b, h, g) := t in mkFlashcard i f b h g)).
  by intros [].
Defined.

(** Modelled from the spec: the enumeration [AnswerDifficulty] of
    [flashcards.ts], one of three outcomes of a review. *)
Inductive AnswerDifficulty : Type := Wrong | Hard | Easy.

#[global] Instance AnswerDifficulty_eq_dec : EqDecision AnswerDifficulty.
Proof. solve_decision. Defined.

(** ** The store of [Set] objects *)

Abbreviation loc := nat.
Abbreviation CardSet := (gset Flashcard).
Abbreviation heap := (list (gset Flashcard)).

Definition M (A : Type) : Type := heap → result (A * heap).

#[global] Instance M_ret : MRet M := λ A a σ, Ok (a, σ).
#[global] Instance M_bind : MBind M := λ A B f m σ,
  match m σ with
  | Ok (a, σ') => f a σ'
  | Throw e => Throw e
  end.

Definition throw {A : Type} (e : error) : M A := λ _, Throw e.

(** [o!]: the non-null assertion of TypeScript checks nothing, the property
    access that follows throws on [undefined]. *)
Definition bang {A : Type} (o : option A) : M A :=
  match o with
  | Some a => mret a
  | None => throw TypeError
  end.

(** A [forEach] whose callback updates the variables it captured: they are
    threaded through as [s]. *)
Fixpoint forEach {A S : Type} (l : list A) (f : A → S → M S) (s : S) : M S :=
  match l with
  | [] => mret s
  | a :: l' => s' ← f a s; forEach l' f s'
  end.

Module JsSet.

(** [new Set()] with the given contents. *)
Definition new (init : CardSet) : M loc :=
  λ σ, Ok (length σ, σ ++ [init]).

Definition read (s : loc) : M CardSet :=
  λ σ, match σ !! s with
       | Some c => Ok (c, σ)
       | None => Throw InvalidRef
       end.

Definition write (s : loc) (c : CardSet) : M () :=
  λ σ, if decide (s < length σ)%nat then Ok ((), <[s := c]> σ)
       else Throw InvalidRef.

Definition has (s : loc) (card : Flashcard) : M bool :=
  c ← read s; mret (bool_decide (card ∈ c)).

Definition add (s : loc) (card : Flashcard) : M () :=
  c ← read s; write s (c ∪ {[card]}).

Definition delete (s : loc) (card : Flashcard) : M () :=
  c ← read s; write s (c ∖ {[card]}).

Definition size (s : loc) : M Z :=
  c ← read s; mret (Z.of_nat (size c)).

(** The elements in iteration order: [Array.from(s)], and what
    [s.forEach] and [new Set(s)] enumerate. *)
Definition values (s : loc) : M (list Flashcard) :=
  c ← read s; mret (elements c).

(** [new Set(iterable)] *)
Definition from (cards : list Flashcard) : M loc :=
  new (list_to_set cards).

End JsSet.

(** Modelled from the spec: the type [BucketMap] of [flashcards.ts], a
    [Map] from bucket number to the [Set] of the cards in that bucket.  The
    entries are listed in insertion order; a [Map] holds each key once. *)
Abbreviation BucketMap := (list (Z * nat)).

Module JsMap.

Definition size (m : BucketMap) : Z := Z.of_nat (length m).

Definition keys (m : BucketMap) : list Z := m.*1.

Fixpoint get (m : BucketMap) (k : Z) : option loc :=
  match m with
  | [] => None
  | (k', v) :: m' => if decide (k' = k) then Some v else get m' k
  end.

Definition has (m : BucketMap) (k : Z) : bool :=
  bool_decide (is_Some (get m k)).

(** [m.set(k, v)]: an existing key keeps its position. *)
Fixpoint set (m : BucketMap) (k : Z) (v : loc) : BucketMap :=
  match m with
  | [] => [(k, v)]
  | (k', v') :: m' =>
      if decide (k' = k) then (k, v) :: m' else (k', v') :: set m' k v
  end.

End JsMap.

Module JsArray.

Abbreviation t := (list (option nat)).

(** The largest length of an array, 2^32 - 1. *)
Definition maxLength : Z := 4294967295.

(** [.fill(null).map(() => mk)] on an array of [n] elements *)
Fixpoint fillWith (n : nat) (mk : M loc) : M t :=
  match n with
  | O => mret []
  | S n' => x ← mk; xs ← fillWith n' mk; mret (Some x :: xs)
  end.

(** [Array(len).fill(null).map(() => mk)]: [Array(len)] throws a
    [RangeError] unless [len] is an integer from 0 to 2^32 - 1. *)
Definition build (len : Z) (mk : M loc) : M t :=
  if bool_decide (0 ≤ len ≤ maxLength) then fillWith (Z.to_nat len) mk
  else throw RangeError.

(** [a[i] = v]: inside the array the element is replaced, beyond its end
    the array grows and the gap is left as holes, and a negative [i] names
    a property, not an element. *)
Definition set (a : t) (i : Z) (v : loc) : t :=
  if i <? 0 then a
  else
    let n := Z.to_nat i in
    if decide (n < length a)%nat then <[n := Some v]> a
    else a ++ replicate (n - length a) None ++ [Some v].

(** The pairs (index, element) of the elements that are not holes, in
    order: what [forEach], [map] and [filter] visit. *)
Fixpoint entriesFrom (i : nat) (a : t) : list (Z * loc) :=
  match a with
  | [] => []
  | None :: a' => entriesFrom (S i) a'
  | Some v :: a' => (Z.of_nat i, v) :: entriesFrom (S i) a'
  end.

Definition entries (a : t) : list (Z * loc) := entriesFrom 0 a.

End JsArray.

(** ** toBucketSets *)

Definition toBucketSets (buckets : BucketMap) : M JsArray.t :=
  if bool_decide (JsMap.size buckets = 0) then mret []
  else
    (* Math.max(...keys, 0) *)
    let maxBucketNumber := foldr Z.max 0 (JsMap.keys buckets) in
    bucketSets ← JsArray.build (maxBucketNumber + 1) (JsSet.new ∅);
    forEach buckets (λ '(bucketNumber, cardSet) bucketSets,
      cards ← JsSet.values cardSet;
      copy ← JsSet.from cards;
      mret (JsArray.set bucketSets bucketNumber copy)) bucketSets.


(** ** getBucketRange *)

Record BucketRange : Type := mkRange { minBucket : Z; maxBucket : Z }.

Definition getBucketRange (buckets : JsArray.t) : M (option BucketRange) :=
  sized ← forEach (JsArray.entries buckets) (λ '(idx, bucket) acc,
             sz ← JsSet.size bucket; mret (acc ++ [(sz, idx)])) [];
  let populatedBuckets := filter (λ item, 0 < item.1) sized in
  match populatedBuckets.*2 with
  | [] => mret None
  | i :: rest =>
      (* reduce from Infinity, resp. -Infinity: the first step yields [i] *)
      mret (Some {| minBucket := foldl Z.min i rest;
                    maxBucket := foldl Z.max i rest |})
  end.

(** ** practice *)

Definition practice (buckets : JsArray.t) (day : Z) : M loc :=
  cardsToStudy ← JsSet.new ∅;
  _ ← forEach (JsArray.entries buckets) (λ '(index, bucket) (_ : ()),
        sz ← JsSet.size bucket;
        if bool_decide (0 < sz) then
          if bool_decide (Z.rem day (2 ^ index) = 0) then
            cards ← JsSet.values bucket;
            forEach cards (λ card (_ : ()), JsSet.add cardsToStudy card) ()
          else mret ()
        else mret ()) ();
  mret cardsToStudy.

(** ** update *)

Definition update (buckets : BucketMap) (card : Flashcard)
    (difficulty : AnswerDifficulty) : M BucketMap :=
  (* copy all buckets first *)
  newBuckets ← forEach buckets (λ '(bucket, cards) newBuckets,
                 elems ← JsSet.values cards;
                 copy ← JsSet.from elems;
                 mret (JsMap.set newBuckets bucket copy)) [];
  (* find which bucket contains the card and remove it *)
  currentBucketNum ← forEach buckets (λ '(bucketNum, cards) currentBucketNum,
                       found ← JsSet.has cards card;
                       if (found : bool) then
                         s ← bang (JsMap.get newBuckets bucketNum);
                         _ ← JsSet.delete s card;
                         mret bucketNum
                       else mret currentBucketNum) (-1);
  let targetBucket :=
    match difficulty with
    | Easy => Z.min (currentBucketNum + 2) 7
    | Hard => Z.min (currentBucketNum + 1) 7
    | Wrong => 0
    end in
  (* ensure destination bucket exists *)
  newBuckets ← (if JsMap.has newBuckets targetBucket then mret newBuckets
                else s ← JsSet.new ∅;
                     mret (JsMap.set newBuckets targetBucket s));
  s ← bang (JsMap.get newBuckets targetBucket);
  _ ← JsSet.add s card;
  mret newBuckets.

(** ** computeProgress *)

Record StageData : Type := mkStageData {
  stage : string;
  cardCount : Z;
  percentage : float
}.

Record ProgressData : Type := mkProgressData {
  totalCards : Z;
  stageBreakdown : list StageData
}.

(** An element of the local table [stages]. *)
Module Stage.

Record t : Type := mk {
  name : string;
  minBucket : Z;
  maxBucket : Z
}.

End Stage.

Definition stages : list Stage.t :=
  [ Stage.mk "Beginner" 0 1;
    Stage.mk "Intermediate" 2 4;
    Stage.mk "Advanced" 5 7 ].

Abbreviation History := (list (Flashcard * list AnswerDifficulty)).

(** [xs.map(f)] for a callback with effects. *)
Fixpoint mapM {A B : Type} (f : A → M B) (l : list A) : M (list B) :=
  match l with
  | [] => mret []
  | a :: l' => b ← f a; bs ← mapM f l'; mret (b :: bs)
  end.

Definition computeProgress (buckets : BucketMap) (history : History)
    : M ProgressData :=
  totalCards ← forEach buckets (λ '(_, cardSet) totalCards,
                 sz ← JsSet.size cardSet; mret (totalCards + sz)) 0;
  stageBreakdown ← mapM (λ st,
      stageCards ← forEach buckets (λ '(bucketNum, cards) stageCards,
                     if bool_decide (Stage.minBucket st ≤ bucketNum)
                        && bool_decide (bucketNum ≤ Stage.maxBucket st)
                     then sz ← JsSet.size cards; mret (stageCards + sz)
                     else mret stageCards) 0;
      mret {| stage := Stage.name st;
              cardCount := stageCards;
              percentage :=
                if bool_decide (0 < totalCards)
                then (Js.number stageCards / Js.number totalCards * 100)%float
                else 0%float |}) stages;
  mret {| totalCards := totalCards; stageBreakdown := stageBreakdown |}.

(** ** getHint *)

Definition mask : jsstring := Js.lit "*".

(** [card.hint && card.hint.trim().length > 0] *)
Definition hasHint (card : Flashcard) : bool :=
  match hint card with
  | None => false
  | Some h => Js.truthy h && bool_decide (0 < Z.of_nat (length (Js.trim h)))
  end.

Definition getHint (card : Flashcard) : result jsstring :=
  if hasHint card then Ok (default [] (hint card))
  else
    let frontText := front card in
    let len := Z.of_nat (length frontText) in
    if len <=? 3 then
      stars ← Js.repeat mask (len - 1);
      Ok (Js.substring frontText 0 1 ++ stars)
    else
      stars ← Js.repeat mask (len - 3);
      Ok (Js.substring frontText 0 3 ++ stars).

(** * Vocabulary of the specification *)

(** What the specification calls a usable hint: present, not empty and not
    made of white space only. *)
Definition usableHint (card : Flashcard) : Prop :=
  ∃ h, hint card = Some h ∧ h ≠ [] ∧ ¬ Forall (λ u, Js.isWhiteSpace u = true) h.

(** Well-formed input.  A [Map] holds no key twice ([uniqueKeys]); the
    bucket numbers are not negative ([nonNegKeys]); every [Set] reachable
    from the input is an object of the store ([allocated],
    [allocatedArray]). *)
Definition uniqueKeys (m : BucketMap) : Prop := NoDup (JsMap.keys m).

Definition nonNegKeys (m : BucketMap) : Prop :=
  Forall (λ k, 0 ≤ k) (JsMap.keys m).

(** The bucket numbers for which [toBucketSets] can build its array: with
    the largest of them, [Array(maxBucketNumber + 1)] has a length of at most
    2^32 - 1. *)
Definition fitsArray (m : BucketMap) : Prop :=
  Forall (λ k, k < JsArray.maxLength) (JsMap.keys m).

(** The bucket numbers from which [update] computes its target exactly: the
    code adds 1 or 2 on doubles, which is exact from -2^53 on as long as the
    sum is below 7, and any sum of at least 7 is capped to 7. *)
Definition exactSums (m : BucketMap) : Prop :=
  Forall (λ k, -9007199254740992 ≤ k) (JsMap.keys m).

Definition allocated (σ : heap) (m : BucketMap) : Prop :=
  Forall (λ e, (e.2 < length σ)%nat) m.

Definition allocatedArray (σ : heap) (a : JsArray.t) : Prop :=
  Forall (λ o, from_option (λ l, (l < length σ)%nat) True o) a.

(** The cards of the [Set] at an address. *)
Definition contents (σ : heap) (l : loc) : CardSet := default ∅ (σ !! l).

(** The cards of bucket [k] of a sparse assignment, when it has that bucket. *)
Definition bucket (σ : heap) (m : BucketMap) (k : Z) : option CardSet :=
  l ← JsMap.get m k; σ !! l.

(** The numbers of the buckets that hold a card, in the order of the map. *)
Definition holders (σ : heap) (m : BucketMap) (card : Flashcard) : list Z :=
  (filter (λ e, card ∈ contents σ e.2) m).*1.

(** The destination of a card that was in bucket [source]. *)
Definition destination (difficulty : AnswerDifficulty) (source : Z) : Z :=
  match difficulty with
  | Easy => Z.min (source + 2) 7
  | Hard => Z.min (source + 1) 7
  | Wrong => 0
  end.


(** The number of cards in the buckets with a number in [lo, hi]. *)
Definition cardsBetween (σ : heap) (m : BucketMap) (lo hi : Z) : Z :=
  foldr (λ e n, Z.of_nat (size (contents σ e.2)) + n) 0
        (filter (λ e, lo ≤ e.1 ∧ e.1 ≤ hi) m).

(** The number of cards in the buckets with a number outside [0, 7]. *)
Definition cardsOutside (σ : heap) (m : BucketMap) : Z :=
  foldr (λ e n, Z.of_nat (size (contents σ e.2)) + n) 0
        (filter (λ e, ¬ (0 ≤ e.1 ∧ e.1 ≤ 7)) m).

(** The number of cards in all the buckets. *)
Definition cardsInAll (σ : heap) (m : BucketMap) : Z :=
  foldr (λ e n, Z.of_nat (size (contents σ e.2)) + n) 0 m.

(** The sum of [f] over a list. *)
Definition sumZ {A : Type} (f : A → Z) (l : list A) : Z :=
  foldr (λ x n, f x + n) 0 l.

(** Index [k] of a dense array holds a set with at least one card. *)
Definition populated (σ : heap) (a : JsArray.t) (k : Z) : Prop :=
  ∃ (i : nat) l, k = Z.of_nat i ∧ a !! i = Some (Some l) ∧ contents σ l ≠ ∅.

(** * What the loops compute

    Pure functions that give the result of a loop of the code; each is
    related to the loop by a lemma ([update_run], [toBucketSets_run],
    [practice_run]). *)

(** The bucket [update] takes for the current one: the last bucket of the
    map that holds the card, and -1 when none does. *)
Definition currentBucket (σ : heap) (m : BucketMap) (card : Flashcard) : Z :=
  foldl (λ cur e, if bool_decide (card ∈ contents σ e.2) then e.1 else cur)
        (-1) m.

(** The map of the copies [update] allocates: bucket by bucket, at the end
    of the store. *)
Definition copies (σ : heap) (m : BucketMap) : BucketMap :=
  zip (JsMap.keys m) (seq (length σ) (length m)).

(** The array after the loop of [toBucketSets]: entry after entry, the cell
    of the bucket number receives the address of the copy, [base] being the
    address of the first copy. *)
Fixpoint placed (a : JsArray.t) (base : nat) (m : BucketMap) : JsArray.t :=
  match m with
  | [] => a
  | (k, _) :: m' => placed (JsArray.set a k base) (S base) m'
  end.

(** The cards [practice] collects from a list of (index, set) pairs: the
    union of the sets whose index [i] has [day % 2^i = 0]. *)
Definition dueIn (σ : heap) (day : Z) (es : list (Z * nat)) : CardSet :=
  ⋃ ((λ e, if bool_decide (Z.rem day (2 ^ e.1) = 0)
           then contents σ e.2 else ∅) <$> es).

(** * Data for the examples *)

Definition plainCard (f : jsstring) (h : option jsstring) : Flashcard :=
  mkFlashcard 0 f (Js.lit "A") h [].

Definition card1 : Flashcard :=
  mkFlashcard 1 (Js.lit "Q1") (Js.lit "A1") None [].

Definition card2 : Flashcard :=
  mkFlashcard 2 (Js.lit "Q2") (Js.lit "A2") None [].

(** A store with one set for each of the two cards and an empty set. *)
Definition store12 : heap := [ {[card1]}; {[card2]}; ∅ ].

(** * Properties *)

(** ** getHint *)

Section GetHint.

Lemma trimStart_nil (s : jsstring) :
  Js.trimStart s = [] ↔ Forall (λ u, Js.isWhiteSpace u = true) s.
Proof.
  induction s as [|u s IH]; simpl.
  - split; [constructor | done].
  - destruct (Js.isWhiteSpace u) eqn:Hu.
    + rewrite IH. split; [by constructor | by inversion 1].
    + split; [done | intros [H _]%Forall_cons_1; simpl in H; congruence].
Qed.

Lemma trimStart_fixed (s : jsstring) :
  Js.trimStart s = [] ∨
  ∃ u s', Js.trimStart s = u :: s' ∧ Js.isWhiteSpace u = false.
Proof.
  induction s as [|u s IH]; simpl; [by left |].
  destruct (Js.isWhiteSpace u) eqn:Hu; [done |].
  right. by exists u, s.
Qed.

Lemma trim_nil (s : jsstring) :
  Js.trim s = [] ↔ Forall (λ u, Js.isWhiteSpace u = true) s.
Proof.
  unfold Js.trim, Js.trimEnd. rewrite <- trimStart_nil. split.
  - intros H. apply (f_equal reverse) in H.
    rewrite reverse_involutive, reverse_nil in H.
    apply trimStart_nil in H. rewrite Forall_reverse in H.
    destruct (trimStart_fixed s) as [|(u & s' & Hs & Hu)]; [done |].
    rewrite Hs in H. apply Forall_cons_1 in H as [H _]. simpl in H. congruence.
  - by intros ->.
Qed.

Lemma hasHint_usable (card : Flashcard) :
  hasHint card = true ↔ usableHint card.
Proof.
  unfold hasHint, usableHint. destruct (hint card) as [h|].
  - rewrite andb_true_iff, bool_decide_eq_true. split.
    + intros [Ht Hl]. exists h. split; [done |].
      split; [by destruct h |]. intros E%trim_nil.
      rewrite E in Hl. simpl in Hl. lia.
    + intros (h' & [= <-] & Hne & Hw). split; [by destruct h |].
      rewrite <- trim_nil in Hw.
      destruct (Js.trim h); [done | simpl; lia].
  - split; [done | by intros (h & ? & _)].
Qed.

Lemma hasHint_unusable (card : Flashcard) :
  hasHint card = false ↔ ¬ usableHint card.
Proof. rewrite <- hasHint_usable. by destruct (hasHint card). Qed.

Lemma repeat_mask (n : Z) :
  0 ≤ n → Js.repeat mask n = Ok (replicate (Z.to_nat n) 42%N).
Proof.
  intros Hn. unfold Js.repeat. destruct (Z.ltb_spec n 0); [lia |].
  f_equal. induction (Z.to_nat n) as [|k IH]; [done |]. simpl. by rewrite IH.
Qed.

Lemma substring_prefix (s : jsstring) (k : nat) :
  Js.substring s 0 (Z.of_nat k) = take k s.
Proof.
  unfold Js.substring.
  replace (Z.min (Z.max 0 0) (Z.of_nat (length s))) with 0 by lia.
  replace (Z.min 0 _) with 0 by lia.
  replace (Z.max 0 _ - 0)
    with (Z.of_nat (k `min` length s)) by lia.
  rewrite Nat2Z.id. simpl. rewrite drop_0.
  destruct (Nat.min_spec k (length s)) as [[? ->]|[? ->]]; [done |].
  by rewrite !take_ge by lia.
Qed.

(** The hint that is returned when there is a usable one. *)
Lemma getHint_verbatim (card : Flashcard) (h : jsstring) :
  usableHint card → hint card = Some h → getHint card = Ok h.
Proof.
  intros Hu Hh. apply hasHint_usable in Hu.
  unfold getHint. by rewrite Hu, Hh.
Qed.

(** The synthesised hint, for a front that is not empty. *)
Lemma getHint_masked (card : Flashcard) :
  ¬ usableHint card → front card ≠ [] →
  let n := length (front card) in
  let k := if decide (n ≤ 3)%nat then 1%nat else 3%nat in
  getHint card = Ok (take k (front card) ++ replicate (n - k) 42%N).
Proof.
  intros Hu Hne n k. apply hasHint_unusable in Hu.
  unfold getHint. rewrite Hu. subst k n.
  assert (0 < length (front card))%nat
    by (destruct (front card); [done | simpl; lia]).
  destruct (Z.leb_spec (Z.of_nat (length (front card))) 3);
    case_decide; try lia.
  - rewrite repeat_mask by lia. simpl.
    rewrite (substring_prefix _ 1). do 3 f_equal. lia.
  - rewrite repeat_mask by lia. simpl.
    rewrite (substring_prefix _ 3). do 3 f_equal. lia.
Qed.

(** With no usable hint and an empty front, [repeat] gets the count [-1]. *)
Lemma getHint_empty_front (card : Flashcard) :
  ¬ usableHint card → front card = [] → getHint card = Throw RangeError.
Proof.
  intros Hu Hf. apply hasHint_unusable in Hu.
  unfold getHint. by rewrite Hu, Hf.
Qed.

Lemma getHint_length (card : Flashcard) (s : jsstring) :
  ¬ usableHint card → getHint card = Ok s → length s = length (front card).
Proof.
  intros Hu Hs. destruct (decide (front card = [])) as [E|E].
  - by rewrite getHint_empty_front in Hs.
  - rewrite getHint_masked in Hs by done. injection Hs as <-.
    rewrite length_app, length_take, length_replicate.
    assert (0 < length (front card))%nat
      by (destruct (front card); [done | simpl; lia]).
    case_decide; lia.
Qed.

End GetHint.

(** C2 as stated fails: the front "Python Programming" has 18 code units, so
    15 of them are masked, not 16. *)
Lemma getHint_python_not_16 :
  ¬ (∀ hi py : Flashcard,
       ¬ usableHint hi → front hi = Js.lit "Hi" →
       ¬ usableHint py → front py = Js.lit "Python Programming" →
       getHint hi = Ok (Js.lit "H*")
       ∧ getHint py = Ok (Js.lit "Pyt" ++ replicate 16 42%N)).
Proof.
  intros H.
  destruct (H (plainCard (Js.lit "Hi") None)
              (plainCard (Js.lit "Python Programming") None)) as [_ H2];
    try done; try (by intros (h & ? & _)).
Qed.

(** C2 (amended): with no usable hint, the front "Hi" gives "H*" and the
    front "Python Programming" gives "Pyt" followed by 15 mask characters. *)
Theorem getHint_examples (hi py : Flashcard) :
  ¬ usableHint hi → front hi = Js.lit "Hi" →
  ¬ usableHint py → front py = Js.lit "Python Programming" →
  getHint hi = Ok (Js.lit "H*")
  ∧ getHint py = Ok (Js.lit "Pyt" ++ replicate 15 42%N).
Proof.
  intros Hu1 Hf1 Hu2 Hf2. split.
  - rewrite getHint_masked; [by rewrite Hf1 | done | by rewrite Hf1].
  - rewrite getHint_masked; [by rewrite Hf2 | done | by rewrite Hf2].
Qed.

Lemma getHint_examples_witness :
  ¬ usableHint (plainCard (Js.lit "Hi") (Some (Js.lit "  ")))
  ∧ front (plainCard (Js.lit "Hi") (Some (Js.lit "  "))) = Js.lit "Hi"
  ∧ ¬ usableHint (plainCard (Js.lit "Python Programming") None)
  ∧ front (plainCard (Js.lit "Python Programming") None)
    = Js.lit "Python Programming"
  ∧ getHint (plainCard (Js.lit "Hi") (Some (Js.lit "  "))) = Ok (Js.lit "H*")
  ∧ getHint (plainCard (Js.lit "Python Programming") None)
    = Ok (Js.lit "Pyt" ++ replicate 15 42%N).
Proof.
  assert (H1 : ¬ usableHint (plainCard (Js.lit "Hi") (Some (Js.lit "  "))))
    by (apply hasHint_unusable; reflexivity).
  assert (H2 : ¬ usableHint (plainCard (Js.lit "Python Programming") None))
    by (apply hasHint_unusable; reflexivity).
  split; [exact H1 |]. split; [reflexivity |].
  split; [exact H2 |]. split; [reflexivity |].
  exact (getHint_examples _ _ H1 eq_refl H2 eq_refl).
Defined.

(** C3: [getHint] is not total.  On a card whose front is the empty string
    and whose hint is empty, or white space only, it throws a [RangeError]
    instead of returning a string. *)
Theorem getHint_throws_on_empty_front :
  getHint (plainCard (Js.lit "") (Some (Js.lit ""))) = Throw RangeError ∧
  getHint (plainCard (Js.lit "") (Some (Js.lit "   "))) = Throw RangeError.
Proof. split; reflexivity. Qed.

(** C7: on a card with no hint and an empty front no string is returned, so
    the result cannot have the length of the front. *)
Theorem getHint_no_result_on_empty_front :
  ¬ ∃ s, getHint (plainCard [] None) = Ok s
         ∧ length s = length (front (plainCard [] None)).
Proof. intros (s & Hs & _). vm_compute in Hs. discriminate Hs. Qed.

(** ** The store *)

Section Store.

Implicit Types (σ ext : heap) (l : loc) (m : BucketMap) (c : CardSet).

Lemma run_bind {A B : Type} (x : M A) (f : A → M B) σ :
  (x ≫= f) σ = match x σ with
               | Ok (a, σ') => f a σ'
               | Throw e => Throw e
               end.
Proof. reflexivity. Qed.

Lemma run_ret {A : Type} (a : A) σ : (mret a : M A) σ = Ok (a, σ).
Proof. reflexivity. Qed.

Lemma lookup_contents σ l :
  (l < length σ)%nat → σ !! l = Some (contents σ l).
Proof.
  intros [c Hc]%lookup_lt_is_Some_2. unfold contents. by rewrite Hc.
Qed.

Lemma contents_app_l σ ext l :
  (l < length σ)%nat → contents (σ ++ ext) l = contents σ l.
Proof. intros H. unfold contents. by rewrite lookup_app_l. Qed.

Lemma contents_middle σ ext c :
  contents (σ ++ c :: ext) (length σ) = c.
Proof. unfold contents. by rewrite list_lookup_middle. Qed.

Lemma insert_middle σ ext c c' :
  <[length σ := c']> (σ ++ c :: ext) = σ ++ c' :: ext.
Proof.
  by rewrite (insert_app_r_alt _ _ (length σ)), Nat.sub_diag by done.
Qed.

Lemma read_run σ l :
  (l < length σ)%nat → JsSet.read l σ = Ok (contents σ l, σ).
Proof. intros H. unfold JsSet.read. by rewrite lookup_contents. Qed.

Lemma write_run σ l c :
  (l < length σ)%nat → JsSet.write l c σ = Ok ((), <[l := c]> σ).
Proof. intros H. unfold JsSet.write. by rewrite decide_True. Qed.

Lemma new_run σ c : JsSet.new c σ = Ok (length σ, σ ++ [c]).
Proof. reflexivity. Qed.

Lemma has_run σ l card :
  (l < length σ)%nat →
  JsSet.has l card σ = Ok (bool_decide (card ∈ contents σ l), σ).
Proof. intros H. unfold JsSet.has. by rewrite run_bind, read_run. Qed.

Lemma size_run σ l :
  (l < length σ)%nat →
  JsSet.size l σ = Ok (Z.of_nat (size (contents σ l)), σ).
Proof. intros H. unfold JsSet.size. by rewrite run_bind, read_run. Qed.

Lemma add_run σ l card :
  (l < length σ)%nat →
  JsSet.add l card σ = Ok ((), <[l := contents σ l ∪ {[card]}]> σ).
Proof.
  intros H. unfold JsSet.add. by rewrite run_bind, read_run, write_run.
Qed.

Lemma delete_run σ l card :
  (l < length σ)%nat →
  JsSet.delete l card σ = Ok ((), <[l := contents σ l ∖ {[card]}]> σ).
Proof.
  intros H. unfold JsSet.delete. by rewrite run_bind, read_run, write_run.
Qed.

End Store.

(** ** Maps *)

Lemma filter_none {A : Type} (P : A → Prop) `{!∀ x, Decision (P x)}
    (l : list A) :
  Forall (λ x, ¬ P x) l → filter P l = [].
Proof.
  induction 1 as [|x l Hx Hl IH]; [done |].
  by rewrite filter_cons, decide_False.
Qed.

Section Maps.

Implicit Types (m : BucketMap) (k : Z) (l : loc).

Lemma get_None m k : JsMap.get m k = None ↔ k ∉ JsMap.keys m.
Proof.
  unfold JsMap.keys. induction m as [|[k' v] m IH]; simpl.
  - split; [intros _; apply not_elem_of_nil | done].
  - rewrite not_elem_of_cons. case_decide as E.
    + split; [done | intros [H _]; by subst].
    + rewrite IH. split; [intros ?; split; [congruence | done] |].
      by intros [_ ?].
Qed.

Lemma has_keys m k : JsMap.has m k = true ↔ k ∈ JsMap.keys m.
Proof.
  unfold JsMap.has. rewrite bool_decide_eq_true.
  destruct (JsMap.get m k) eqn:E.
  - split; [intros _ | by eauto].
    destruct (decide (k ∈ JsMap.keys m)) as [|H%get_None]; [done | congruence].
  - apply get_None in E. split; [by intros [? [=]] | done].
Qed.

Lemma get_lookup m (i : nat) k l :
  uniqueKeys m → m !! i = Some (k, l) → JsMap.get m k = Some l.
Proof.
  unfold uniqueKeys, JsMap.keys. revert i.
  induction m as [|[k' v] m IH]; intros i Hnd Hi; [done |].
  simpl in *. apply NoDup_cons in Hnd as [Hk Hnd].
  destruct i as [|i]; simpl in Hi.
  - injection Hi as -> ->. by rewrite decide_True.
  - rewrite decide_False; [by eapply IH |].
    intros ->. apply Hk. apply list_elem_of_fmap.
    exists (k, l). split; [done |]. by eapply list_elem_of_lookup_2.
Qed.

Lemma get_Some m k l :
  JsMap.get m k = Some l → ∃ i : nat, m !! i = Some (k, l).
Proof.
  induction m as [|[k' v] m IH]; simpl; [done |].
  case_decide as E.
  - intros [= ->]. subst. by exists 0%nat.
  - intros [i Hi]%IH. by exists (S i).
Qed.

Lemma set_fresh m k l :
  k ∉ JsMap.keys m → JsMap.set m k l = m ++ [(k, l)].
Proof.
  unfold JsMap.keys. induction m as [|[k' v] m IH]; simpl; [done |].
  rewrite not_elem_of_cons. intros [Hne Hk].
  rewrite decide_False by done. by rewrite IH.
Qed.

Lemma get_snoc m k l :
  k ∉ JsMap.keys m → JsMap.get (m ++ [(k, l)]) k = Some l.
Proof.
  unfold JsMap.keys. induction m as [|[k' v] m IH]; simpl.
  - intros _. by rewrite decide_True.
  - rewrite not_elem_of_cons. intros [Hne Hk].
    rewrite decide_False by done. by apply IH.
Qed.

Lemma lookup_key m (i : nat) k :
  JsMap.keys m !! i = Some k → ∃ l, m !! i = Some (k, l).
Proof.
  unfold JsMap.keys. rewrite list_lookup_fmap.
  destruct (m !! i) as [[k' l]|]; simpl; [| done].
  intros [= ->]. by exists l.
Qed.

Lemma unique_key_index m (i j : nat) k l l' :
  uniqueKeys m → m !! i = Some (k, l) → m !! j = Some (k, l') → i = j.
Proof.
  intros Hnd Hi Hj. eapply NoDup_lookup; [exact Hnd | |].
  - unfold JsMap.keys. by rewrite list_lookup_fmap, Hi.
  - unfold JsMap.keys. by rewrite list_lookup_fmap, Hj.
Qed.

(** Changing the image of the one entry with key [k]. *)
Lemma insert_fmap_unique {B : Type} m (i : nat) k l (f g : Z * loc → B) :
  uniqueKeys m → m !! i = Some (k, l) →
  (∀ e, e.1 ≠ k → g e = f e) →
  <[i := g (k, l)]> (f <$> m) = g <$> m.
Proof.
  intros Hnd Hi Hfg. apply list_eq. intros j.
  destruct (decide (i = j)) as [<-|Hne].
  - rewrite list_lookup_insert_eq, list_lookup_fmap, Hi; [done |].
    rewrite length_fmap. by eapply lookup_lt_Some.
  - rewrite list_lookup_insert_ne, !list_lookup_fmap by done.
    destruct (m !! j) as [[k' l']|] eqn:Hj; simpl; [| done].
    f_equal. symmetry. apply Hfg. simpl. intros ->.
    by apply Hne, (unique_key_index m i j k l l').
Qed.

Lemma get_app m m' k :
  JsMap.get (m ++ m') k
  = match JsMap.get m k with
    | Some l => Some l
    | None => JsMap.get m' k
    end.
Proof.
  induction m as [|[k' v] m IH]; simpl; [done |]. by case_decide.
Qed.

Lemma get_elem_of m k l :
  uniqueKeys m → (k, l) ∈ m → JsMap.get m k = Some l.
Proof.
  intros Hnd [i Hi]%list_elem_of_lookup. by eapply get_lookup.
Qed.

End Maps.

(** ** update, step by step *)

Section Update.

Context (σ : heap) (card : Flashcard).

Implicit Types (m pre acc : BucketMap) (ext : heap) (k : Z) (l : loc).

(** [new Set(s)] and [new Set(Array.from(s))] allocate a set with the
    contents of [s]. *)
Lemma copy_run {A : Type} ext l (cont : loc → M A) :
  (l < length σ)%nat →
  (elems ← JsSet.values l; copy ← JsSet.from elems; cont copy) (σ ++ ext)
  = cont (length (σ ++ ext)) (σ ++ ext ++ [contents σ l]).
Proof.
  intros H. unfold JsSet.values, JsSet.from.
  rewrite !run_bind, read_run by (rewrite length_app; lia). simpl.
  rewrite run_bind, new_run, list_to_set_elements_L, contents_app_l by done.
  by rewrite <- (assoc_L (++)).
Qed.

(** The first loop: one fresh copy for each bucket. *)
Lemma copy_loop m : ∀ acc ext,
  allocated σ m →
  NoDup (JsMap.keys acc ++ JsMap.keys m) →
  forEach m (λ '(bucket, cards) newBuckets,
               elems ← JsSet.values cards;
               copy ← JsSet.from elems;
               mret (JsMap.set newBuckets bucket copy)) acc (σ ++ ext)
  = Ok (acc ++ zip (JsMap.keys m) (seq (length σ + length ext) (length m)),
        σ ++ ext ++ ((λ e, contents σ e.2) <$> m)).
Proof.
  induction m as [|[k l] m IH]; intros acc ext Hal Hnd.
  - simpl. by rewrite !app_nil_r.
  - apply Forall_cons_1 in Hal as [Hl Hal]. simpl in Hl.
    cbn [forEach]. rewrite run_bind, copy_run by done.
    rewrite run_ret, length_app.
    apply NoDup_app in Hnd as (Hacc & Hdisj & Hm).
    rewrite set_fresh
      by (intros Hk; apply (Hdisj _ Hk); simpl; apply list_elem_of_here).
    replace (σ ++ ext ++ [contents σ l]) with (σ ++ (ext ++ [contents σ l]))
      by done.
    rewrite IH; [| done |].
    + rewrite length_app, <- !(assoc_L (++)). cbn.
      by replace (length σ + (length ext + 1))%nat
           with (S (length σ + length ext)) by lia.
    + unfold JsMap.keys in *. rewrite fmap_app. simpl.
      rewrite <- (assoc_L (++)). simpl.
      apply NoDup_app. split; [done |]. split; [| done].
      intros x Hx. apply (Hdisj _ Hx).
Qed.

Lemma keys_copies m : JsMap.keys (copies σ m) = JsMap.keys m.
Proof.
  unfold copies, JsMap.keys. apply fst_zip.
  by rewrite length_seq, length_fmap.
Qed.

Lemma lookup_copies m (i : nat) k l :
  m !! i = Some (k, l) → copies σ m !! i = Some (k, (length σ + i)%nat).
Proof.
  intros Hi. unfold copies, JsMap.keys.
  rewrite lookup_zip_with, list_lookup_fmap, Hi. simpl.
  rewrite lookup_seq_lt; [done |]. by eapply lookup_lt_Some.
Qed.

Lemma get_copies m (i : nat) k l :
  uniqueKeys m → m !! i = Some (k, l) →
  JsMap.get (copies σ m) k = Some (length σ + i)%nat.
Proof.
  intros Hnd Hi. apply (get_lookup _ i).
  - unfold uniqueKeys. by rewrite keys_copies.
  - by eapply lookup_copies.
Qed.

(** The second loop: the card leaves the copy of every bucket that holds
    it, and the number of the last such bucket is kept. *)
Lemma find_loop (nb : BucketMap) m : ∀ cur ext,
  allocated σ m →
  (∀ (i : nat) k l, m !! i = Some (k, l) →
     JsMap.get nb k = Some (length σ + length ext + i)%nat) →
  forEach m (λ '(bucketNum, cards) currentBucketNum,
               found ← JsSet.has cards card;
               if (found : bool) then
                 s ← bang (JsMap.get nb bucketNum);
                 _ ← JsSet.delete s card;
                 mret bucketNum
               else mret currentBucketNum) cur
          (σ ++ ext ++ ((λ e, contents σ e.2) <$> m))
  = Ok (foldl (λ cur e,
                 if bool_decide (card ∈ contents σ e.2) then e.1 else cur)
              cur m,
        σ ++ ext ++ ((λ e, contents σ e.2 ∖ {[card]}) <$> m)).
Proof.
  induction m as [|[k l] m IH]; intros cur ext Hal Hget; [done |].
  apply Forall_cons_1 in Hal as [Hl Hal]. simpl in Hl.
  cbn [forEach foldl fmap list_fmap]. simpl.
  rewrite !run_bind, has_run by (rewrite length_app; lia).
  rewrite contents_app_l by done.
  assert (Hnext : ∀ (i : nat) k' l', m !! i = Some (k', l') →
            JsMap.get nb k'
            = Some (length σ + length (ext ++ [contents σ l ∖ {[card]}])
                    + i)%nat).
  { intros i k' l' Hi. rewrite (Hget (S i) k' l' Hi), length_app. simpl.
    f_equal. lia. }
  specialize (IH (if bool_decide (card ∈ contents σ l) then k else cur)
                 (ext ++ [contents σ l ∖ {[card]}]) Hal Hnext).
  rewrite <- !(assoc_L (++)) in IH. simpl in IH.
  case_bool_decide as Hin.
  - rewrite (Hget 0%nat k l eq_refl), Nat.add_0_r. simpl.
    rewrite run_bind, run_ret, run_bind, delete_run
      by (rewrite !length_app; simpl; lia).
    rewrite run_ret.
    replace (<[_ := _]> _)
      with (σ ++ ext ++ contents σ l ∖ {[card]}
              :: ((λ e, contents σ e.2) <$> m)); [done |].
    rewrite !(assoc_L (++)), <- length_app.
    by rewrite contents_middle, insert_middle.
  - rewrite run_ret.
    replace (contents σ l) with (contents σ l ∖ {[card]}) at 1; [done |].
    by apply difference_disjoint_L, disjoint_singleton_r.
Qed.

(** The run of [update], written out: the buckets are copied to the end
    of the store, the card leaves every copy, and it enters the copy of the
    target bucket, which is allocated last when the map has no such
    bucket. *)
Lemma update_run m (difficulty : AnswerDifficulty) :
  allocated σ m → uniqueKeys m →
  let t := destination difficulty (currentBucket σ m card) in
  update m card difficulty σ
  = Ok (copies σ m
          ++ (if decide (t ∈ JsMap.keys m) then []
              else [(t, (length σ + length m)%nat)]),
        σ ++ ((λ e, if decide (e.1 = t)
                    then contents σ e.2 ∖ {[card]} ∪ {[card]}
                    else contents σ e.2 ∖ {[card]}) <$> m)
          ++ (if decide (t ∈ JsMap.keys m) then [] else [{[card]}])).
Proof.
  intros Hal Hnd t. unfold update.
  pose proof (copy_loop m [] [] Hal Hnd) as H1.
  rewrite app_nil_r, Nat.add_0_r in H1. simpl in H1.
  rewrite run_bind, H1. clear H1.
  fold (copies σ m).
  pose proof (find_loop (copies σ m) m (-1) [] Hal) as H2.
  simpl in H2. rewrite Nat.add_0_r in H2.
  rewrite run_bind, H2
    by (intros i k l Hi; by apply (get_copies m i k l)).
  clear H2. fold (currentBucket σ m card).
  change (match difficulty with
          | Wrong => 0
          | Hard => Z.min (currentBucket σ m card + 1) 7
          | Easy => Z.min (currentBucket σ m card + 2) 7
          end) with t.
  cbv zeta. rewrite run_bind.
  set (σ2 := σ ++ ((λ e, contents σ e.2 ∖ {[card]}) <$> m)).
  assert (Hlen : length σ2 = (length σ + length m)%nat)
    by (unfold σ2; by rewrite length_app, length_fmap).
  destruct (decide (t ∈ JsMap.keys m)) as [Hin|Hout].
  - rewrite (proj2 (has_keys _ _)) by (by rewrite keys_copies).
    rewrite run_ret, run_bind.
    apply list_elem_of_lookup in Hin as [i Hi].
    apply lookup_key in Hi as [l Hi].
    rewrite (get_copies m i t l) by done. simpl.
    assert (i < length m)%nat by (by eapply lookup_lt_Some).
    rewrite run_bind, add_run, run_ret by lia.
    rewrite app_nil_r. do 2 f_equal. unfold σ2.
    unfold contents at 1.
    rewrite lookup_app_r, Nat.add_comm, Nat.add_sub by lia.
    rewrite list_lookup_fmap, Hi. simpl.
    rewrite Nat.add_comm, insert_app_r, app_nil_r. f_equal.
    rewrite <- (insert_fmap_unique m i t l
             (λ e, contents σ e.2 ∖ {[card]})
             (λ e, if decide (e.1 = t)
                   then contents σ e.2 ∖ {[card]} ∪ {[card]}
                   else contents σ e.2 ∖ {[card]})); [| done | done |].
    + simpl. by rewrite decide_True.
    + intros e He. by rewrite decide_False.
  - destruct (JsMap.has (copies σ m) t) eqn:Hhas.
    { apply has_keys in Hhas. by rewrite keys_copies in Hhas. }
    rewrite run_bind, new_run. simpl.
    rewrite set_fresh by (by rewrite keys_copies).
    rewrite run_bind, get_snoc by (by rewrite keys_copies).
    simpl.
    rewrite run_bind, add_run by (rewrite length_app; simpl; lia).
    rewrite run_ret, contents_middle, insert_middle, (left_id_L ∅ (∪)).
    rewrite Hlen. unfold σ2. rewrite <- (assoc_L (++)). do 4 f_equal.
    apply Forall_fmap_ext, Forall_forall. intros [k l] He.
    rewrite decide_False; [done |]. simpl. intros ->.
    apply Hout. unfold JsMap.keys. apply list_elem_of_fmap.
    by exists (t, l).
Qed.

Lemma allocated_lookup m (i : nat) k l :
  allocated σ m → m !! i = Some (k, l) → σ !! l = Some (contents σ l).
Proof.
  intros Hal Hi. apply lookup_contents.
  by apply (Forall_lookup_1 _ _ _ _ Hal Hi).
Qed.

Lemma bucket_lookup m (i : nat) k l :
  allocated σ m → uniqueKeys m → m !! i = Some (k, l) →
  bucket σ m k = Some (contents σ l).
Proof.
  intros Hal Hnd Hi. unfold bucket.
  rewrite (get_lookup m i k l) by done. simpl.
  by eapply allocated_lookup.
Qed.

Lemma bucket_None m k : k ∉ JsMap.keys m → bucket σ m k = None.
Proof. intros H%get_None. unfold bucket. by rewrite H. Qed.

(** The bucket the code takes for the current one is the last holder. *)
Lemma currentBucket_last m :
  currentBucket σ m card = default (-1) (last (holders σ m card)).
Proof.
  unfold currentBucket, holders. generalize (-1).
  induction m as [|[k l] m IH]; intros cur; [done |].
  simpl. rewrite IH. rewrite filter_cons. simpl.
  case_bool_decide as Hin.
  - rewrite decide_True by done. rewrite fmap_cons, last_cons. simpl.
    by destruct (last _).
  - by rewrite decide_False by done.
Qed.

End Update.

(** ** update, as a relation between its input and its output *)

Section UpdateSpec.

Implicit Types (σ : heap) (m nb : BucketMap) (k t : Z) (l : loc).

(** A card that is in the buckets numbered [t] of a map with unique keys,
    and in no other, has [t] for its only holder. *)
Lemma holders_unique σ nb card t :
  uniqueKeys nb → t ∈ JsMap.keys nb →
  (∀ k l, (k, l) ∈ nb → card ∈ contents σ l ↔ k = t) →
  holders σ nb card = [t].
Proof.
  unfold uniqueKeys, holders, JsMap.keys.
  induction nb as [|[k l] nb IH]; intros Hnd Hin Hiff.
  { by apply elem_of_nil in Hin. }
  simpl in *. apply NoDup_cons in Hnd as [Hk Hnd].
  rewrite filter_cons. simpl.
  assert (Htail : ∀ k' l', (k', l') ∈ nb → card ∈ contents σ l' ↔ k' = t)
    by (intros k' l' H'; apply Hiff; by right).
  destruct (decide (k = t)) as [->|Hne].
  - rewrite decide_True by (apply (Hiff t l); [left | done]).
    simpl. f_equal.
    replace (filter _ nb) with (@nil (Z * loc)); [done |].
    symmetry. apply filter_none, Forall_forall. intros [k' l'] H'.
    simpl. rewrite (Htail k' l' H'). intros ->.
    apply Hk, list_elem_of_fmap. by exists (t, l').
  - rewrite decide_False
      by (rewrite (Hiff k l) by (by left); done).
    apply IH; [done | | done].
    apply elem_of_cons in Hin as [|]; [congruence | done].
Qed.

(** The map of the buckets after [update], bucket by bucket. *)
Theorem update_spec σ m card (difficulty : AnswerDifficulty) :
  allocated σ m → uniqueKeys m →
  let t := destination difficulty (currentBucket σ m card) in
  ∃ nb σ',
    update m card difficulty σ = Ok (nb, σ')
    ∧ σ `prefix_of` σ'
    ∧ allocated σ' nb
    ∧ uniqueKeys nb
    ∧ Forall (λ e, (length σ ≤ e.2)%nat) nb
    ∧ JsMap.keys nb
      = JsMap.keys m ++ (if decide (t ∈ JsMap.keys m) then [] else [t])
    ∧ ∀ k, bucket σ' nb k
           = if decide (k = t)
             then Some (default ∅ (bucket σ m k) ∖ {[card]} ∪ {[card]})
             else (λ s, s ∖ {[card]}) <$> bucket σ m k.
Proof.
  intros Hal Hnd t. eexists _, _. split; [by apply update_run |].
  fold t.
  set (F := λ e : Z * loc,
         if decide (e.1 = t) then contents σ e.2 ∖ {[card]} ∪ {[card]}
         else contents σ e.2 ∖ {[card]}).
  assert (Hkeys :
    JsMap.keys (copies σ m ++
                (if decide (t ∈ JsMap.keys m) then []
                 else [(t, (length σ + length m)%nat)]))
    = JsMap.keys m ++ (if decide (t ∈ JsMap.keys m) then [] else [t])).
  { unfold JsMap.keys at 1. rewrite fmap_app. fold (JsMap.keys (copies σ m)).
    rewrite keys_copies. by case_decide. }
  assert (Huniq : NoDup
    (JsMap.keys m ++ (if decide (t ∈ JsMap.keys m) then [] else [t]))).
  { case_decide; [by rewrite app_nil_r |].
    apply NoDup_app. split; [done |]. split; [| apply NoDup_singleton].
    intros x Hx ->%list_elem_of_singleton. done. }
  split; [by eexists |].
  split.
  { apply Forall_app. split.
    - apply Forall_forall. intros [k l] [i Hi]%list_elem_of_lookup.
      unfold copies in Hi.
      apply lookup_zip_with_Some in Hi as (k' & l' & [= <- <-] & _ & Hl).
      apply lookup_seq in Hl as [-> Hl]. simpl.
      rewrite !length_app, length_fmap. lia.
    - case_decide; constructor; [| done]. simpl.
      rewrite !length_app, length_fmap. simpl. lia. }
  split; [unfold uniqueKeys; by rewrite Hkeys |].
  split.
  { apply Forall_app. split.
    - apply Forall_forall. intros [k l] [i Hi]%list_elem_of_lookup.
      unfold copies in Hi.
      apply lookup_zip_with_Some in Hi as (k' & l' & [= <- <-] & _ & Hl).
      apply lookup_seq in Hl as [-> Hl]. simpl. lia.
    - case_decide; constructor; [| done]. simpl. lia. }
  split; [done |].
  intros k. unfold bucket at 1. rewrite get_app.
  destruct (decide (k ∈ JsMap.keys m)) as [Hin|Hout].
  - apply list_elem_of_lookup in Hin as [i Hi].
    apply lookup_key in Hi as [l Hi].
    rewrite (get_copies σ m i k l) by done. simpl.
    rewrite (bucket_lookup σ m i k l) by done. simpl.
    assert (i < length m)%nat by (by eapply lookup_lt_Some).
    rewrite lookup_app_r, Nat.add_comm, Nat.add_sub by lia.
    rewrite lookup_app_l by (by rewrite length_fmap).
    rewrite list_lookup_fmap, Hi. simpl. unfold F. simpl.
    by destruct (decide (k = t)).
  - rewrite (bucket_None σ m k) by done. simpl.
    destruct (JsMap.get (copies σ m) k) eqn:E.
    { exfalso. apply Hout. rewrite <- (keys_copies σ m).
      destruct (decide (k ∈ JsMap.keys (copies σ m))) as [|H%get_None];
        [done | congruence]. }
    destruct (decide (k = t)) as [->|Hne].
    + rewrite !(decide_False (P := t ∈ JsMap.keys m)) by done. simpl.
      rewrite decide_True by done. simpl.
      rewrite lookup_app_r by lia.
      rewrite lookup_app_r by (rewrite length_fmap; lia).
      rewrite length_fmap.
      replace (length σ + length m - length σ - length m)%nat
        with 0%nat by lia.
      simpl. f_equal.
      by rewrite empty_difference_L, (left_id_L ∅ (∪)).
    + destruct (decide (t ∈ JsMap.keys m)); simpl; [done |].
      by rewrite decide_False.
Qed.

(** After [update] the card is in the target bucket and in no other. *)
Lemma update_holder σ σ' m nb card t :
  allocated σ' nb → uniqueKeys nb → t ∈ JsMap.keys nb →
  (∀ k, bucket σ' nb k
        = if decide (k = t)
          then Some (default ∅ (bucket σ m k) ∖ {[card]} ∪ {[card]})
          else (λ s, s ∖ {[card]}) <$> bucket σ m k) →
  holders σ' nb card = [t].
Proof.
  intros Hal Hnd Hin Hb. apply holders_unique; [done | done |].
  intros k l Hkl.
  pose proof (get_elem_of nb k l Hnd Hkl) as Hget.
  apply list_elem_of_lookup in Hkl as [i Hi].
  pose proof (allocated_lookup σ' nb i k l Hal Hi) as Hl.
  specialize (Hb k). unfold bucket at 1 in Hb. rewrite Hget in Hb.
  simpl in Hb. rewrite Hl in Hb.
  destruct (decide (k = t)) as [->|Hne].
  - injection Hb as ->. split; [done |]. intros _.
    apply elem_of_union_r, elem_of_singleton. done.
  - split; [| done]. intros Hc.
    destruct (bucket σ m k) as [s|]; simpl in Hb; [| done].
    injection Hb as Hb. rewrite Hb in Hc.
    apply elem_of_difference in Hc as [_ Hc].
    exfalso. apply Hc. by apply elem_of_singleton.
Qed.

Lemma destination_le_7 (difficulty : AnswerDifficulty) (s : Z) :
  destination difficulty s ≤ 7.
Proof. destruct difficulty; simpl; lia. Qed.

Lemma target_in_keys m t :
  t ∈ JsMap.keys m ++ (if decide (t ∈ JsMap.keys m) then [] else [t]).
Proof.
  case_decide; [by rewrite app_nil_r |].
  apply elem_of_app. right. apply list_elem_of_here.
Qed.

(** A card held by bucket [s] alone is found there by [update]. *)
Lemma currentBucket_holder σ m card s :
  holders σ m card = [s] → currentBucket σ m card = s.
Proof. intros H. by rewrite currentBucket_last, H. Qed.

Lemma currentBucket_absent σ m card :
  holders σ m card = [] → currentBucket σ m card = -1.
Proof. intros H. by rewrite currentBucket_last, H. Qed.

(** A holder is a key of the map. *)
Lemma holder_key σ m card s :
  s ∈ holders σ m card → s ∈ JsMap.keys m.
Proof.
  unfold holders, JsMap.keys.
  intros ([k l] & -> & [_ H]%list_elem_of_filter)%list_elem_of_fmap.
  apply list_elem_of_fmap. by exists (k, l).
Qed.

End UpdateSpec.

(** ** update: the claims *)

(** C1: a card that is in bucket [s] alone, with [0 ≤ s ≤ 7], is placed by
    [update] in bucket [min (s + 2) 7] for [Easy], [min (s + 1) 7] for [Hard]
    and [0] for [Wrong].  From bucket 6, [Easy] leads to bucket 7, and no
    bucket 8 appears. *)
Theorem update_destination (σ : heap) (m : BucketMap) (card : Flashcard)
    (difficulty : AnswerDifficulty) (s : Z) :
  allocated σ m → uniqueKeys m → holders σ m card = [s] → 0 ≤ s ≤ 7 →
  ∃ nb σ',
    update m card difficulty σ = Ok (nb, σ')
    ∧ (∃ cs, bucket σ' nb (destination difficulty s) = Some cs ∧ card ∈ cs)
    ∧ holders σ' nb card = [destination difficulty s]
    ∧ (difficulty = Easy → s = 6 → holders σ' nb card = [7])
    ∧ (8 ∉ JsMap.keys m → 8 ∉ JsMap.keys nb).
Proof.
  intros Hal Hnd Hs Hrange.
  destruct (update_spec σ m card difficulty Hal Hnd)
    as (nb & σ' & Hrun & _ & Hal' & Hnd' & _ & Hkeys & Hb).
  rewrite (currentBucket_holder σ m card s Hs) in Hkeys, Hb.
  set (t := destination difficulty s) in *.
  assert (Hin : t ∈ JsMap.keys nb) by (rewrite Hkeys; apply target_in_keys).
  assert (Hh : holders σ' nb card = [t])
    by (by apply (update_holder σ σ' m nb card t)).
  exists nb, σ'. split; [done |]. split; [| split; [done |]; split].
  - rewrite (Hb t), decide_True by done. eexists. split; [done |].
    apply elem_of_union_r, elem_of_singleton. done.
  - intros -> ->. exact Hh.
  - intros H8. rewrite Hkeys. rewrite elem_of_app. intros [|H]; [done |].
    case_decide; [by apply elem_of_nil in H |].
    apply list_elem_of_singleton in H.
    pose proof (destination_le_7 difficulty s). unfold t in *. lia.
Qed.

Lemma update_destination_witness :
  allocated store12 [(6, 0%nat)] ∧ uniqueKeys [(6, 0%nat)]
  ∧ holders store12 [(6, 0%nat)] card1 = [6] ∧ 0 ≤ 6 ≤ 7
  ∧ ∃ nb σ',
      update [(6, 0%nat)] card1 Easy store12 = Ok (nb, σ')
      ∧ (∃ cs, bucket σ' nb (destination Easy 6) = Some cs ∧ card1 ∈ cs)
      ∧ holders σ' nb card1 = [destination Easy 6]
      ∧ (Easy = Easy → 6 = 6 → holders σ' nb card1 = [7])
      ∧ (8 ∉ JsMap.keys [(6, 0%nat)] → 8 ∉ JsMap.keys nb).
Proof.
  assert (H1 : allocated store12 [(6, 0%nat)])
    by (repeat constructor; simpl; lia).
  assert (H2 : uniqueKeys [(6, 0%nat)]) by apply NoDup_singleton.
  assert (H3 : holders store12 [(6, 0%nat)] card1 = [6]) by reflexivity.
  assert (H4 : 0 ≤ 6 ≤ 7) by lia.
  repeat split; try assumption; try lia.
  exact (update_destination store12 [(6, 0%nat)] card1 Easy 6 H1 H2 H3 H4).
Defined.

Lemma destination_ge_0 (difficulty : AnswerDifficulty) (s : Z) :
  -1 ≤ s → 0 ≤ destination difficulty s.
Proof. destruct difficulty; simpl; lia. Qed.

(** C6: after [update] on buckets numbered within [0, 7], one of which, and
    only one, holds the card: the card is in exactly one bucket, every bucket
    number is within [0, 7], and the source bucket is still a bucket of the
    map; when the card moves to another bucket, its set is the former one
    without the card, which may be empty. *)
Theorem update_invariants (σ : heap) (m : BucketMap) (card : Flashcard)
    (difficulty : AnswerDifficulty) (s : Z) :
  allocated σ m → uniqueKeys m →
  Forall (λ k, 0 ≤ k ≤ 7) (JsMap.keys m) →
  holders σ m card = [s] →
  ∃ nb σ',
    update m card difficulty σ = Ok (nb, σ')
    ∧ uniqueKeys nb
    ∧ (∃ t, holders σ' nb card = [t])
    ∧ Forall (λ k, 0 ≤ k ≤ 7) (JsMap.keys nb)
    ∧ (∃ cs0 cs,
         bucket σ m s = Some cs0 ∧ bucket σ' nb s = Some cs
         ∧ (destination difficulty s ≠ s → cs = cs0 ∖ {[card]})).
Proof.
  intros Hal Hnd Hrange Hs.
  assert (Hsk : s ∈ JsMap.keys m).
  { apply (holder_key σ m card). rewrite Hs. apply list_elem_of_here. }
  assert (0 ≤ s ≤ 7) by (by apply (proj1 (Forall_forall _ _) Hrange)).
  destruct (update_spec σ m card difficulty Hal Hnd)
    as (nb & σ' & Hrun & _ & Hal' & Hnd' & _ & Hkeys & Hb).
  rewrite (currentBucket_holder σ m card s Hs) in Hkeys, Hb.
  set (t := destination difficulty s) in *.
  assert (Hin : t ∈ JsMap.keys nb) by (rewrite Hkeys; apply target_in_keys).
  exists nb, σ'. split; [done |]. split; [done |].
  split; [exists t; by apply (update_holder σ σ' m nb card t) |].
  split.
  - rewrite Hkeys. apply Forall_app. split; [done |].
    case_decide; constructor; [| done].
    pose proof (destination_le_7 difficulty s).
    pose proof (destination_ge_0 difficulty s). unfold t. lia.
  - apply list_elem_of_lookup in Hsk as [i Hi].
    apply lookup_key in Hi as [l Hi].
    rewrite (Hb s), (bucket_lookup σ m i s l) by done.
    destruct (decide (s = t)); simpl; eexists _, _;
      (split; [done |]); (split; [done |]); [congruence | done].
Qed.

Lemma update_invariants_witness :
  allocated store12 [(0, 2%nat); (6, 0%nat)]
  ∧ uniqueKeys [(0, 2%nat); (6, 0%nat)]
  ∧ Forall (λ k, 0 ≤ k ≤ 7) (JsMap.keys [(0, 2%nat); (6, 0%nat)])
  ∧ holders store12 [(0, 2%nat); (6, 0%nat)] card1 = [6]
  ∧ ∃ nb σ',
      update [(0, 2%nat); (6, 0%nat)] card1 Hard store12 = Ok (nb, σ')
      ∧ uniqueKeys nb
      ∧ (∃ t, holders σ' nb card1 = [t])
      ∧ Forall (λ k, 0 ≤ k ≤ 7) (JsMap.keys nb)
      ∧ (∃ cs0 cs,
           bucket store12 [(0, 2%nat); (6, 0%nat)] 6 = Some cs0
           ∧ bucket σ' nb 6 = Some cs
           ∧ (destination Hard 6 ≠ 6 → cs = cs0 ∖ {[card1]})).
Proof.
  assert (H1 : allocated store12 [(0, 2%nat); (6, 0%nat)])
    by (repeat constructor; simpl; lia).
  assert (H2 : uniqueKeys [(0, 2%nat); (6, 0%nat)])
    by (apply (bool_decide_unpack (NoDup [0; 6])); reflexivity).
  assert (H3 : Forall (λ k, 0 ≤ k ≤ 7) (JsMap.keys [(0, 2%nat); (6, 0%nat)]))
    by (repeat constructor; simpl; lia).
  assert (H4 : holders store12 [(0, 2%nat); (6, 0%nat)] card1 = [6])
    by reflexivity.
  split; [exact H1 |]. split; [exact H2 |]. split; [exact H3 |].
  split; [exact H4 |].
  exact (update_invariants store12 [(0, 2%nat); (6, 0%nat)] card1 Hard 6
           H1 H2 H3 H4).
Defined.

(** C10: for a card that no bucket holds, [update] takes -1 for the current
    bucket, so the card is put in bucket 1 for [Easy] and in bucket 0 for
    [Hard] and for [Wrong]; the call returns, and the card is in that bucket
    and in no other. *)
Theorem update_absent_card (σ : heap) (m : BucketMap) (card : Flashcard)
    (difficulty : AnswerDifficulty) :
  allocated σ m → uniqueKeys m → holders σ m card = [] →
  let t := match difficulty with Easy => 1 | Hard => 0 | Wrong => 0 end in
  currentBucket σ m card = -1
  ∧ ∃ nb σ',
      update m card difficulty σ = Ok (nb, σ')
      ∧ uniqueKeys nb
      ∧ holders σ' nb card = [t]
      ∧ ∃ cs, bucket σ' nb t = Some cs ∧ card ∈ cs.
Proof.
  intros Hal Hnd Hs t.
  pose proof (currentBucket_absent σ m card Hs) as Hcur.
  split; [done |].
  destruct (update_spec σ m card difficulty Hal Hnd)
    as (nb & σ' & Hrun & _ & Hal' & Hnd' & _ & Hkeys & Hb).
  rewrite Hcur in Hkeys, Hb.
  replace (destination difficulty (-1)) with t in Hkeys, Hb
    by (by destruct difficulty).
  assert (Hin : t ∈ JsMap.keys nb) by (rewrite Hkeys; apply target_in_keys).
  exists nb, σ'. split; [done |]. split; [done |].
  split; [by apply (update_holder σ σ' m nb card t) |].
  rewrite (Hb t), decide_True by done. eexists. split; [done |].
  apply elem_of_union_r, elem_of_singleton. done.
Qed.

Lemma update_absent_card_witness :
  allocated store12 [(3, 1%nat)] ∧ uniqueKeys [(3, 1%nat)]
  ∧ holders store12 [(3, 1%nat)] card1 = []
  ∧ currentBucket store12 [(3, 1%nat)] card1 = -1
  ∧ ∃ nb σ',
      update [(3, 1%nat)] card1 Easy store12 = Ok (nb, σ')
      ∧ uniqueKeys nb
      ∧ holders σ' nb card1 = [1]
      ∧ ∃ cs, bucket σ' nb 1 = Some cs ∧ card1 ∈ cs.
Proof.
  assert (H1 : allocated store12 [(3, 1%nat)])
    by (repeat constructor; simpl; lia).
  assert (H2 : uniqueKeys [(3, 1%nat)]) by apply NoDup_singleton.
  assert (H3 : holders store12 [(3, 1%nat)] card1 = []) by reflexivity.
  split; [exact H1 |]. split; [exact H2 |]. split; [exact H3 |].
  exact (update_absent_card store12 [(3, 1%nat)] card1 Easy H1 H2 H3).
Defined.

(** ** The array of [toBucketSets] *)

Section Placed.

Implicit Types (m : BucketMap) (a : JsArray.t) (k : Z) (l base : nat).

Lemma array_set_inside a k l :
  0 ≤ k < Z.of_nat (length a) →
  JsArray.set a k l = <[Z.to_nat k := Some l]> a.
Proof.
  intros Hk. unfold JsArray.set.
  destruct (Z.ltb_spec k 0); [lia |]. by rewrite decide_True by lia.
Qed.

Lemma array_set_negative a k l : k < 0 → JsArray.set a k l = a.
Proof.
  intros Hk. unfold JsArray.set. by destruct (Z.ltb_spec k 0); [| lia].
Qed.

Lemma array_set_length a k l :
  k < Z.of_nat (length a) → length (JsArray.set a k l) = length a.
Proof.
  intros Hk. destruct (decide (k < 0)).
  - by rewrite array_set_negative.
  - by rewrite array_set_inside, length_insert by lia.
Qed.

Lemma array_set_lookup_ne a k l (i : nat) :
  k < Z.of_nat (length a) → k ≠ Z.of_nat i →
  JsArray.set a k l !! i = a !! i.
Proof.
  intros Hk Hne. destruct (decide (k < 0)).
  - by rewrite array_set_negative.
  - rewrite array_set_inside, list_lookup_insert_ne by lia. done.
Qed.

Lemma array_set_lookup_eq a l (i : nat) :
  (i < length a)%nat → JsArray.set a (Z.of_nat i) l !! i = Some (Some l).
Proof.
  intros Hi. rewrite array_set_inside, Nat2Z.id by lia.
  by rewrite list_lookup_insert_eq.
Qed.

Lemma placed_length m : ∀ a base,
  Forall (λ k, k < Z.of_nat (length a)) (JsMap.keys m) →
  length (placed a base m) = length a.
Proof.
  induction m as [|[k l0] m IH]; intros a base Hb; [done |].
  apply Forall_cons_1 in Hb as [Hk Hb]. simpl.
  rewrite IH; rewrite array_set_length; done.
Qed.

(** A cell whose index is not a bucket number is left as it was. *)
Lemma placed_lookup_absent m (i : nat) : ∀ a base,
  Forall (λ k, k < Z.of_nat (length a)) (JsMap.keys m) →
  Z.of_nat i ∉ JsMap.keys m →
  placed a base m !! i = a !! i.
Proof.
  induction m as [|[k l0] m IH]; intros a base Hb Hi; [done |].
  apply Forall_cons_1 in Hb as [Hk Hb]. simpl in *.
  apply not_elem_of_cons in Hi as [Hne Hi].
  rewrite IH; [| by rewrite array_set_length | done].
  by apply array_set_lookup_ne.
Qed.

(** The cell of the bucket number of the [j]-th entry holds the [j]-th copy. *)
Lemma placed_lookup_present m (i : nat) : ∀ a base (j : nat) l0,
  Forall (λ k, k < Z.of_nat (length a)) (JsMap.keys m) →
  uniqueKeys m →
  m !! j = Some (Z.of_nat i, l0) →
  placed a base m !! i = Some (Some (base + j)%nat).
Proof.
  unfold uniqueKeys.
  induction m as [|[k l1] m IH]; intros a base j l0 Hb Hnd Hj; [done |].
  apply Forall_cons_1 in Hb as [Hk Hb]. simpl in *.
  apply NoDup_cons in Hnd as [Hk' Hnd].
  destruct j as [|j]; simpl in Hj.
  - injection Hj as -> ->.
    rewrite placed_lookup_absent; [| by rewrite array_set_length | done].
    rewrite Nat.add_0_r. by apply array_set_lookup_eq, Nat2Z.inj_lt.
  - rewrite (IH _ _ j l0); [| by rewrite array_set_length | done | done].
    do 2 f_equal. lia.
Qed.

Lemma keys_le_max m :
  Forall (λ k, k ≤ foldr Z.max 0 (JsMap.keys m)) (JsMap.keys m).
Proof.
  unfold JsMap.keys. induction m as [|[k l] m IH]; [constructor |].
  rewrite fmap_cons. cbn [foldr fst]. constructor; [lia |].
  eapply Forall_impl; [exact IH |]. cbv beta. intros x Hx. lia.
Qed.

Lemma max_nonneg m : 0 ≤ foldr Z.max 0 (JsMap.keys m).
Proof.
  unfold JsMap.keys. induction m as [|[k l] m IH]; [done |].
  rewrite fmap_cons. cbn [foldr fst]. lia.
Qed.


Lemma max_fits m :
  fitsArray m → foldr Z.max 0 (JsMap.keys m) < JsArray.maxLength.
Proof.
  unfold fitsArray, JsMap.keys.
  induction m as [|[k l] m IH]; intros Hfit; [done |].
  rewrite fmap_cons in Hfit |- *. apply Forall_cons_1 in Hfit as [Hk Hfit].
  cbn [foldr fst] in *. specialize (IH Hfit). lia.
Qed.

End Placed.

(** ** toBucketSets, step by step *)

Section ToBucketSets.

Context (σ : heap).

Implicit Types (m : BucketMap) (a : JsArray.t) (ext : heap) (k : Z) (l : loc).

Lemma fill_run (n : nat) : ∀ ext,
  JsArray.fillWith n (JsSet.new ∅) (σ ++ ext)
  = Ok (Some <$> seq (length σ + length ext) n, σ ++ ext ++ replicate n ∅).
Proof.
  induction n as [|n IH]; intros ext; simpl.
  - by rewrite run_ret, !app_nil_r.
  - rewrite run_bind, new_run, <- (assoc_L (++)).
    rewrite run_bind, (IH (ext ++ [∅])), run_ret, !length_app.
    rewrite <- !(assoc_L (++)). simpl.
    by replace (length σ + (length ext + 1))%nat
         with (S (length σ + length ext)) by lia.
Qed.

(** The loop: one fresh copy for each bucket, put in the cell of its number. *)
Lemma place_loop m : ∀ a ext,
  allocated σ m →
  forEach m (λ '(bucketNumber, cardSet) bucketSets,
               cards ← JsSet.values cardSet;
               copy ← JsSet.from cards;
               mret (JsArray.set bucketSets bucketNumber copy)) a (σ ++ ext)
  = Ok (placed a (length σ + length ext) m,
        σ ++ ext ++ ((λ e, contents σ e.2) <$> m)).
Proof.
  induction m as [|[k l] m IH]; intros a ext Hal.
  - simpl. by rewrite !app_nil_r.
  - apply Forall_cons_1 in Hal as [Hl Hal]. simpl in Hl.
    cbn [forEach]. rewrite run_bind, copy_run by done.
    rewrite run_ret, length_app.
    replace (σ ++ ext ++ [contents σ l]) with (σ ++ (ext ++ [contents σ l]))
      by done.
    rewrite IH by done.
    rewrite length_app, <- !(assoc_L (++)). cbn.
    by replace (length σ + (length ext + 1))%nat
         with (S (length σ + length ext)) by lia.
Qed.

Lemma build_run (len : Z) :
  0 ≤ len ≤ JsArray.maxLength →
  JsArray.build len (JsSet.new ∅) σ
  = Ok (Some <$> seq (length σ) (Z.to_nat len),
        σ ++ replicate (Z.to_nat len) ∅).
Proof.
  intros Hlen. unfold JsArray.build. rewrite bool_decide_eq_true_2 by done.
  pose proof (fill_run (Z.to_nat len) []) as H.
  rewrite app_nil_r, Nat.add_0_r in H. by simpl in H.
Qed.

Lemma toBucketSets_run m :
  allocated σ m → fitsArray m → m ≠ [] →
  let n := Z.to_nat (foldr Z.max 0 (JsMap.keys m) + 1) in
  toBucketSets m σ
  = Ok (placed (Some <$> seq (length σ) n) (length σ + n) m,
        σ ++ replicate n ∅ ++ ((λ e, contents σ e.2) <$> m)).
Proof.
  intros Hal Hfit Hne n. unfold toBucketSets.
  rewrite bool_decide_eq_false_2
    by (unfold JsMap.size; destruct m; [done | simpl; lia]).
  pose proof (max_nonneg m). pose proof (max_fits m Hfit).
  rewrite run_bind, build_run by lia. fold n.
  by rewrite place_loop, length_replicate.
Qed.

End ToBucketSets.


(** ** toBucketSets, as a relation between its input and its output *)

Section ToBucketSetsSpec.

Implicit Types (σ : heap) (m : BucketMap) (k : Z) (l : loc).

(** Cell by cell: the cell of a bucket number holds the copy made for that
    bucket, any other cell the empty set it was created with. *)
Lemma placed_cell σ m (n i : nat) :
  uniqueKeys m →
  Forall (λ k, k < Z.of_nat n) (JsMap.keys m) →
  (i < n)%nat →
  let arr := placed (Some <$> seq (length σ) n) (length σ + n) m in
  ((Z.of_nat i ∉ JsMap.keys m) ∧ arr !! i = Some (Some (length σ + i)%nat))
  ∨ (∃ (j : nat) l0, m !! j = Some (Z.of_nat i, l0)
                     ∧ arr !! i = Some (Some (length σ + n + j)%nat)).
Proof.
  intros Hnd Hb Hi arr.
  assert (Hb' : Forall (λ k, k < Z.of_nat (length (Some <$> seq (length σ) n)))
                       (JsMap.keys m))
    by (by rewrite length_fmap, length_seq).
  destruct (decide (Z.of_nat i ∈ JsMap.keys m)) as [Hin|Hout].
  - right. apply list_elem_of_lookup in Hin as [j Hj].
    apply lookup_key in Hj as [l0 Hj]. exists j, l0. split; [done |].
    by apply (placed_lookup_present m i _ _ j l0).
  - left. split; [done |]. unfold arr.
    rewrite placed_lookup_absent by done.
    by rewrite list_lookup_fmap, lookup_seq_lt.
Qed.

(** The array and the store after the two loops, for any list of entries
    whose keys are below the length [n] of the array. *)
Lemma placed_spec σ m (n : nat) :
  allocated σ m → uniqueKeys m →
  Forall (λ k, k < Z.of_nat n) (JsMap.keys m) →
  let arr := placed (Some <$> seq (length σ) n) (length σ + n) m in
  let σ' := σ ++ replicate n ∅ ++ ((λ e, contents σ e.2) <$> m) in
  length arr = n
  ∧ NoDup arr
  ∧ ∀ i : nat, (i < n)%nat →
      ∃ l, arr !! i = Some (Some l)
           ∧ (length σ ≤ l < length σ')%nat
           ∧ σ' !! l = Some (default ∅ (bucket σ m (Z.of_nat i))).
Proof.
  intros Hal Hnd Hb arr σ'.
  assert (Hlen : length arr = n)
    by (unfold arr; rewrite placed_length;
        rewrite length_fmap, length_seq; done).
  split; [done |]. split.
  - apply NoDup_alt. intros i1 i2 x H1 H2.
    assert (i1 < n)%nat by (rewrite <- Hlen; by eapply lookup_lt_Some).
    assert (i2 < n)%nat by (rewrite <- Hlen; by eapply lookup_lt_Some).
    destruct (placed_cell σ m n i1 Hnd Hb) as [[_ E1]|(j1 & l1 & Hj1 & E1)];
      [done | |];
      destruct (placed_cell σ m n i2 Hnd Hb) as [[_ E2]|(j2 & l2 & Hj2 & E2)];
      try done; fold arr in E1, E2; rewrite H1 in E1; rewrite H2 in E2;
      simplify_eq; try lia.
    assert (j1 = j2) by lia. subst j2. rewrite Hj1 in Hj2.
    injection Hj2 as Hj2 _. lia.
  - intros i Hi. unfold σ'.
    destruct (placed_cell σ m n i Hnd Hb Hi) as [[Hout E]|(j & l0 & Hj & E)].
    + eexists. split; [exact E |].
      rewrite !length_app, length_replicate, length_fmap.
      split; [lia |].
      rewrite (bucket_None σ m _ Hout). simpl.
      rewrite lookup_app_r, Nat.add_comm, Nat.add_sub by lia.
      rewrite lookup_app_l by (by rewrite length_replicate).
      by rewrite lookup_replicate_2.
    + eexists. split; [exact E |].
      assert (j < length m)%nat by (by eapply lookup_lt_Some).
      rewrite !length_app, length_replicate, length_fmap.
      split; [lia |].
      rewrite (bucket_lookup σ m j _ l0) by done. simpl.
      rewrite lookup_app_r by lia.
      rewrite lookup_app_r by (rewrite length_replicate; lia).
      rewrite length_replicate.
      replace (length σ + n + j - length σ - n)%nat with j by lia.
      by rewrite list_lookup_fmap, Hj.
Qed.

Theorem toBucketSets_spec σ m :
  allocated σ m → uniqueKeys m → fitsArray m → m ≠ [] →
  let n := Z.to_nat (foldr Z.max 0 (JsMap.keys m) + 1) in
  ∃ arr σ',
    toBucketSets m σ = Ok (arr, σ')
    ∧ length arr = n
    ∧ σ `prefix_of` σ'
    ∧ NoDup arr
    ∧ ∀ i : nat, (i < n)%nat →
        ∃ l, arr !! i = Some (Some l)
             ∧ (length σ ≤ l < length σ')%nat
             ∧ σ' !! l = Some (default ∅ (bucket σ m (Z.of_nat i))).
Proof.
  intros Hal Hnd Hfit Hne n. eexists _, _.
  split; [by apply toBucketSets_run |]. fold n.
  assert (Hb : Forall (λ k, k < Z.of_nat n) (JsMap.keys m)).
  { eapply Forall_impl; [apply keys_le_max |]. cbv beta. intros k Hk.
    pose proof (max_nonneg m). unfold n. lia. }
  destruct (placed_spec σ m n Hal Hnd Hb) as (Hlen & Hdis & Hcell).
  split; [done |]. split; [by eexists |]. done.
Qed.

End ToBucketSetsSpec.

(** ** The entries of an array *)

Section Entries.

Implicit Types (a : JsArray.t) (k : Z) (l s i : nat).

Lemma elem_of_entriesFrom a : ∀ s k l,
  (k, l) ∈ JsArray.entriesFrom s a
  ↔ ∃ i, k = Z.of_nat (s + i) ∧ a !! i = Some (Some l).
Proof.
  induction a as [|[v|] a IH]; intros s k l; simpl.
  - split; [by intros ?%elem_of_nil | by intros (i & _ & ?)].
  - rewrite elem_of_cons, IH. split.
    + intros [[= -> ->]|(i & -> & Hi)].
      * exists 0%nat. by rewrite Nat.add_0_r.
      * exists (S i). split; [f_equal; lia | done].
    + intros ([|i] & -> & Hi); simpl in Hi.
      * left. injection Hi as ->. by rewrite Nat.add_0_r.
      * right. exists i. split; [f_equal; lia | done].
  - rewrite IH. split.
    + intros (i & -> & Hi). exists (S i). split; [f_equal; lia | done].
    + intros ([|i] & -> & Hi); simpl in Hi; [done |].
      exists i. split; [f_equal; lia | done].
Qed.

Lemma elem_of_entries a (i : nat) l :
  (Z.of_nat i, l) ∈ JsArray.entries a ↔ a !! i = Some (Some l).
Proof.
  unfold JsArray.entries. rewrite elem_of_entriesFrom. split.
  - intros (j & Hj & Hl). simpl in Hj. by apply Nat2Z.inj in Hj as ->.
  - intros H. by exists i.
Qed.

Lemma entries_key a k l :
  (k, l) ∈ JsArray.entries a →
  ∃ i : nat, k = Z.of_nat i ∧ a !! i = Some (Some l).
Proof.
  unfold JsArray.entries. rewrite elem_of_entriesFrom.
  intros (i & -> & Hi). by exists i.
Qed.

Lemma uniqueKeys_entriesFrom a : ∀ s, uniqueKeys (JsArray.entriesFrom s a).
Proof.
  unfold uniqueKeys, JsMap.keys.
  induction a as [|[v|] a IH]; intros s; simpl; [constructor | | apply IH].
  constructor; [| apply IH].
  intros ([k l] & Hk & (i & -> & _)%elem_of_entriesFrom)%list_elem_of_fmap.
  simpl in Hk. lia.
Qed.

Lemma uniqueKeys_entries a : uniqueKeys (JsArray.entries a).
Proof. apply uniqueKeys_entriesFrom. Qed.

Lemma nonNegKeys_entries a : nonNegKeys (JsArray.entries a).
Proof.
  unfold nonNegKeys, JsMap.keys. apply Forall_forall.
  intros k ([k' l] & -> & (i & -> & _)%entries_key)%list_elem_of_fmap.
  simpl. lia.
Qed.

Lemma get_entries a (i : nat) l :
  a !! i = Some (Some l) → JsMap.get (JsArray.entries a) (Z.of_nat i) = Some l.
Proof.
  intros H. apply get_elem_of; [apply uniqueKeys_entries |].
  by apply elem_of_entries.
Qed.

Lemma allocated_entries (σ : heap) a :
  allocatedArray σ a → allocated σ (JsArray.entries a).
Proof.
  intros Hal. apply Forall_forall. intros [k l] (i & -> & Hi)%entries_key.
  by apply (Forall_lookup_1 _ _ _ _ Hal Hi).
Qed.

End Entries.

(** ** toBucketSets: the claims *)




(** ** toBucketSets applied to its own result *)

Section OfArray.

Implicit Types (σ : heap) (a : JsArray.t).




End OfArray.




(** ** practice *)

Section Practice.

Context (σ : heap) (day : Z).

Implicit Types (es : list (Z * nat)) (S : CardSet) (l : loc).

(** The inner loop adds the cards one by one to the set under construction. *)
Lemma add_loop (cards : list Flashcard) : ∀ S,
  forEach cards (λ card (_ : ()), JsSet.add (length σ) card) () (σ ++ [S])
  = Ok ((), σ ++ [S ∪ list_to_set cards]).
Proof.
  induction cards as [|c cards IH]; intros S; simpl.
  - by rewrite run_ret, (right_id_L ∅ (∪)).
  - rewrite run_bind, add_run by (rewrite length_app; simpl; lia).
    rewrite contents_middle, insert_middle, IH.
    by rewrite (assoc_L (∪)).
Qed.

Lemma due_loop es : ∀ S,
  allocated σ es →
  forEach es (λ '(index, bucket) (_ : ()),
    sz ← JsSet.size bucket;
    if bool_decide (0 < sz) then
      if bool_decide (Z.rem day (2 ^ index) = 0) then
        cards ← JsSet.values bucket;
        forEach cards (λ card (_ : ()), JsSet.add (length σ) card) ()
      else mret ()
    else mret ()) () (σ ++ [S])
  = Ok ((), σ ++ [S ∪ dueIn σ day es]).
Proof.
  unfold dueIn.
  induction es as [|[k l] es IH]; intros S Hal.
  - simpl. by rewrite run_ret, (right_id_L ∅ (∪)).
  - apply Forall_cons_1 in Hal as [Hl Hal]. simpl in Hl.
    cbn [forEach]. rewrite !run_bind, size_run by (rewrite length_app; lia).
    rewrite contents_app_l by done.
    rewrite fmap_cons, union_list_cons, (assoc_L (∪)). cbn [fst snd].
    case_bool_decide as Hsz.
    + case_bool_decide as Hday.
      * unfold JsSet.values.
        rewrite !run_bind, read_run by (rewrite length_app; lia).
        rewrite run_ret, contents_app_l, add_loop by done.
        by rewrite list_to_set_elements_L, IH.
      * by rewrite run_ret, (right_id_L ∅ (∪)), IH.
    + rewrite run_ret.
      assert (contents σ l = ∅) as ->
        by (apply leibniz_equiv, size_empty_inv; lia).
      rewrite IH by done. by case_bool_decide; rewrite (right_id_L ∅ (∪)).
Qed.

Lemma practice_run (a : JsArray.t) :
  allocatedArray σ a →
  practice a day σ = Ok (length σ, σ ++ [dueIn σ day (JsArray.entries a)]).
Proof.
  intros Hal. unfold practice.
  rewrite run_bind, new_run, run_bind.
  rewrite due_loop by (by apply allocated_entries).
  by rewrite run_ret, (left_id_L ∅ (∪)).
Qed.

Lemma elem_of_dueIn es (card : Flashcard) :
  card ∈ dueIn σ day es
  ↔ ∃ k l, (k, l) ∈ es ∧ Z.rem day (2 ^ k) = 0 ∧ card ∈ contents σ l.
Proof.
  unfold dueIn. rewrite elem_of_union_list. split.
  - intros (X & ([k l] & -> & He)%list_elem_of_fmap & Hc). simpl in Hc.
    case_bool_decide; [| by apply elem_of_empty in Hc]. by exists k, l.
  - intros (k & l & He & Hday & Hc). eexists. split.
    + apply list_elem_of_fmap. by exists (k, l).
    + simpl. by rewrite bool_decide_eq_true_2.
Qed.

End Practice.

(** C4: for a day that is not negative, [practice] returns a new set whose
    cards are those of the buckets with an index [i] such that
    [day mod 2^i = 0], and no others.  Bucket 0 obeys the same rule, so its
    cards are selected on every day; on day 0 every bucket is selected. *)
Theorem practice_due (σ : heap) (a : JsArray.t) (day : Z) :
  allocatedArray σ a → 0 ≤ day →
  ∃ due,
    practice a day σ = Ok (length σ, σ ++ [due])
    ∧ (∀ card, card ∈ due
         ↔ ∃ (i : nat) l cs, a !! i = Some (Some l) ∧ σ !! l = Some cs
                             ∧ day `mod` 2 ^ Z.of_nat i = 0 ∧ card ∈ cs)
    ∧ (∀ l cs, a !! 0%nat = Some (Some l) → σ !! l = Some cs → cs ⊆ due)
    ∧ (day = 0 → ∀ (i : nat) l cs,
         a !! i = Some (Some l) → σ !! l = Some cs → cs ⊆ due).
Proof.
  intros Hal Hday. exists (dueIn σ day (JsArray.entries a)).
  split; [by apply practice_run |].
  assert (Hrem : ∀ i : nat,
            Z.rem day (2 ^ Z.of_nat i) = 0 ↔ day `mod` 2 ^ Z.of_nat i = 0).
  { intros i. rewrite Z.rem_mod_nonneg; [done | done |].
    apply Z.pow_pos_nonneg; lia. }
  assert (Hchar : ∀ card, card ∈ dueIn σ day (JsArray.entries a)
            ↔ ∃ (i : nat) l cs, a !! i = Some (Some l) ∧ σ !! l = Some cs
                                ∧ day `mod` 2 ^ Z.of_nat i = 0 ∧ card ∈ cs).
  { intros card. rewrite elem_of_dueIn. split.
    - intros (k & l & (i & -> & Hi)%entries_key & Hk & Hc).
      exists i, l, (contents σ l). split; [done |].
      split; [| split; [by apply Hrem | done]].
      apply lookup_contents. by apply (Forall_lookup_1 _ _ _ _ Hal Hi).
    - intros (i & l & cs & Hi & Hl & Hk & Hc).
      exists (Z.of_nat i), l. split; [by apply elem_of_entries |].
      split; [by apply Hrem |]. unfold contents. by rewrite Hl. }
  split; [done |]. split.
  - intros l cs Hi Hl card Hc. apply Hchar.
    exists 0%nat, l, cs. split; [done |]. split; [done |].
    split; [| done]. simpl. apply Z.mod_1_r.
  - intros -> i l cs Hi Hl card Hc. apply Hchar.
    exists i, l, cs. split; [done |]. split; [done |].
    split; [| done]. apply Z.mod_0_l. apply Z.pow_nonzero; lia.
Qed.

Lemma practice_due_witness :
  allocatedArray store12 [Some 2%nat; Some 0%nat; Some 1%nat] ∧ 0 ≤ 2
  ∧ ∃ due,
      practice [Some 2%nat; Some 0%nat; Some 1%nat] 2 store12
      = Ok (length store12, store12 ++ [due])
      ∧ (∀ card, card ∈ due
           ↔ ∃ (i : nat) l cs,
               [Some 2%nat; Some 0%nat; Some 1%nat] !! i = Some (Some l)
               ∧ store12 !! l = Some cs
               ∧ 2 `mod` 2 ^ Z.of_nat i = 0 ∧ card ∈ cs)
      ∧ (∀ l cs, [Some 2%nat; Some 0%nat; Some 1%nat] !! 0%nat = Some (Some l)
                 → store12 !! l = Some cs → cs ⊆ due)
      ∧ (2 = 0 → ∀ (i : nat) l cs,
           [Some 2%nat; Some 0%nat; Some 1%nat] !! i = Some (Some l)
           → store12 !! l = Some cs → cs ⊆ due).
Proof.
  assert (H1 : allocatedArray store12 [Some 2%nat; Some 0%nat; Some 1%nat])
    by (repeat constructor; simpl; lia).
  assert (H2 : 0 ≤ 2) by lia.
  split; [exact H1 |]. split; [exact H2 |].
  exact (practice_due store12 [Some 2%nat; Some 0%nat; Some 1%nat] 2 H1 H2).
Defined.

(** ** computeProgress *)

Section Progress.

Context (σ : heap).

Implicit Types (m : BucketMap) (acc lo hi : Z).

Lemma total_loop m : ∀ acc,
  allocated σ m →
  forEach m (λ '(_, cardSet) totalCards,
               sz ← JsSet.size cardSet; mret (totalCards + sz)) acc σ
  = Ok (acc + cardsInAll σ m, σ).
Proof.
  unfold cardsInAll.
  induction m as [|[k l] m IH]; intros acc Hal.
  - simpl. by rewrite run_ret, Z.add_0_r.
  - apply Forall_cons_1 in Hal as [Hl Hal]. simpl in Hl.
    cbn [forEach foldr snd]. rewrite !run_bind, size_run, run_ret by done.
    rewrite IH by done. do 2 f_equal. lia.
Qed.

Lemma stage_loop (st : Stage.t) m : ∀ acc,
  allocated σ m →
  forEach m (λ '(bucketNum, cards) stageCards,
               if bool_decide (Stage.minBucket st ≤ bucketNum)
                  && bool_decide (bucketNum ≤ Stage.maxBucket st)
               then sz ← JsSet.size cards; mret (stageCards + sz)
               else mret stageCards) acc σ
  = Ok (acc + cardsBetween σ m (Stage.minBucket st) (Stage.maxBucket st), σ).
Proof.
  unfold cardsBetween.
  induction m as [|[k l] m IH]; intros acc Hal.
  - simpl. by rewrite run_ret, Z.add_0_r.
  - apply Forall_cons_1 in Hal as [Hl Hal]. simpl in Hl.
    cbn [forEach]. rewrite run_bind, filter_cons. cbn [fst].
    destruct (decide (Stage.minBucket st ≤ k ∧ k ≤ Stage.maxBucket st))
      as [[H1 H2]|Hout].
    + rewrite !bool_decide_eq_true_2 by done. cbn [andb foldr snd].
      rewrite run_bind, size_run, run_ret, IH by done. do 2 f_equal. lia.
    + replace (bool_decide (Stage.minBucket st ≤ k)
               && bool_decide (k ≤ Stage.maxBucket st)) with false.
      * by rewrite run_ret, IH.
      * symmetry. apply andb_false_iff.
        rewrite !bool_decide_eq_false.
        destruct (decide (Stage.minBucket st ≤ k)); [| by left].
        right. intros ?. by apply Hout.
Qed.

Lemma cardsInAll_nonneg m : 0 ≤ cardsInAll σ m.
Proof.
  unfold cardsInAll. induction m as [|e m IH]; [done |].
  cbn [foldr]. lia.
Qed.

(** The run of [computeProgress], written out; the store is only read. *)
Lemma computeProgress_run m (history : History) :
  allocated σ m →
  computeProgress m history σ
  = Ok ({| totalCards := cardsInAll σ m;
           stageBreakdown :=
             (λ st,
                let count :=
                  cardsBetween σ m (Stage.minBucket st) (Stage.maxBucket st) in
                {| stage := Stage.name st;
                   cardCount := count;
                   percentage :=
                     if bool_decide (0 < cardsInAll σ m)
                     then (Js.number count / Js.number (cardsInAll σ m)
                           * 100)%float
                     else 0%float |}) <$> stages |}, σ).
Proof.
  intros Hal. unfold computeProgress.
  rewrite run_bind, total_loop by done. rewrite Z.add_0_l.
  unfold stages. cbn [mapM fmap list_fmap].
  rewrite !run_bind, (stage_loop (Stage.mk "Beginner" 0 1)) by done.
  rewrite run_ret, !run_bind.
  rewrite (stage_loop (Stage.mk "Intermediate" 2 4)) by done.
  rewrite run_ret, !run_bind.
  rewrite (stage_loop (Stage.mk "Advanced" 5 7)) by done.
  by rewrite !run_ret.
Qed.

End Progress.

(** C8: [computeProgress] returns the number of cards of all the buckets,
    and three stages, Beginner for the buckets 0 to 1, Intermediate for 2 to
    4 and Advanced for 5 to 7, each with the number of its cards and its
    percentage: 0 when the total is 0, where no division takes place, and
    otherwise the quotient of the count by the total, times 100, as computed
    on doubles.  The history has no part in the result, and the store is
    left as it was. *)
Theorem computeProgress_stages (σ : heap) (m : BucketMap) (history : History) :
  allocated σ m →
  ∃ p,
    computeProgress m history σ = Ok (p, σ)
    ∧ totalCards p = cardsInAll σ m
    ∧ (λ d, (stage d, cardCount d)) <$> stageBreakdown p
      = [ ("Beginner"%string, cardsBetween σ m 0 1);
          ("Intermediate"%string, cardsBetween σ m 2 4);
          ("Advanced"%string, cardsBetween σ m 5 7) ]
    ∧ Forall (λ d,
        (totalCards p = 0 → percentage d = 0%float)
        ∧ (totalCards p ≠ 0 →
           percentage d
           = (Js.number (cardCount d) / Js.number (totalCards p)
              * 100)%float))
        (stageBreakdown p)
    ∧ ∀ history', computeProgress m history' σ = computeProgress m history σ.
Proof.
  intros Hal. eexists. split; [by apply computeProgress_run |].
  split; [done |]. split; [done |]. split.
  - pose proof (cardsInAll_nonneg σ m) as Hpos. cbn [totalCards stageBreakdown].
    apply Forall_fmap, Forall_forall. intros st _. simpl.
    case_bool_decide; split.
    + intros E. lia.
    + intros _. reflexivity.
    + done.
    + intros E. lia.
  - intros history'. by rewrite !computeProgress_run.
Qed.

Lemma computeProgress_stages_witness :
  allocated store12 [(0, 0%nat); (2, 1%nat)]
  ∧ ∃ p,
      computeProgress [(0, 0%nat); (2, 1%nat)] [] store12 = Ok (p, store12)
      ∧ totalCards p = cardsInAll store12 [(0, 0%nat); (2, 1%nat)]
      ∧ (λ d, (stage d, cardCount d)) <$> stageBreakdown p
        = [ ("Beginner"%string,
             cardsBetween store12 [(0, 0%nat); (2, 1%nat)] 0 1);
            ("Intermediate"%string,
             cardsBetween store12 [(0, 0%nat); (2, 1%nat)] 2 4);
            ("Advanced"%string,
             cardsBetween store12 [(0, 0%nat); (2, 1%nat)] 5 7) ]
      ∧ Forall (λ d,
          (totalCards p = 0 → percentage d = 0%float)
          ∧ (totalCards p ≠ 0 →
             percentage d
             = (Js.number (cardCount d) / Js.number (totalCards p)
                * 100)%float))
          (stageBreakdown p)
      ∧ ∀ history',
          computeProgress [(0, 0%nat); (2, 1%nat)] history' store12
          = computeProgress [(0, 0%nat); (2, 1%nat)] [] store12.
Proof.
  assert (H1 : allocated store12 [(0, 0%nat); (2, 1%nat)])
    by (repeat constructor; simpl; lia).
  split; [exact H1 |].
  exact (computeProgress_stages store12 [(0, 0%nat); (2, 1%nat)] [] H1).
Defined.

(** The quotient is taken on doubles: 7 cards out of 25 are reported as
    28.000000000000004 per cent, and without the test on the total an empty
    assignment would give [NaN]. *)
Example percentage_7_of_25 :
  (Js.number 7 / Js.number 25 * 100)%float = 0x1.c000000000001p+4%float.
Proof. reflexivity. Qed.

Example percentage_0_of_0 :
  (Js.number 0 / Js.number 0 * 100)%float = nan.
Proof. reflexivity. Qed.

(** ** Normal termination *)

Section Termination.

Implicit Types (σ : heap) (m : BucketMap) (a : JsArray.t).

Lemma sizes_loop σ (es : list (Z * nat)) : ∀ acc,
  allocated σ es →
  forEach es (λ '(idx, bucket) acc,
                sz ← JsSet.size bucket; mret (acc ++ [(sz, idx)])) acc σ
  = Ok (acc ++ ((λ e, (Z.of_nat (size (contents σ e.2)), e.1)) <$> es), σ).
Proof.
  induction es as [|[k l] es IH]; intros acc Hal.
  - simpl. by rewrite run_ret, app_nil_r.
  - apply Forall_cons_1 in Hal as [Hl Hal]. simpl in Hl.
    cbn [forEach]. rewrite !run_bind, size_run, run_ret by done.
    rewrite IH by done. by rewrite <- (assoc_L (++)).
Qed.

Lemma getBucketRange_returns σ a :
  allocatedArray σ a → ∃ r, getBucketRange a σ = Ok (r, σ).
Proof.
  intros Hal. unfold getBucketRange.
  rewrite run_bind, sizes_loop by (by apply allocated_entries).
  destruct (filter _ _).*2; by eexists.
Qed.

Lemma toBucketSets_returns σ m :
  allocated σ m → fitsArray m → ∃ r σ', toBucketSets m σ = Ok (r, σ').
Proof.
  intros Hal Hfit. destruct (decide (m = [])) as [->|Hne]; [by exists [], σ |].
  eexists _, _. by apply toBucketSets_run.
Qed.

Lemma practice_returns σ a (day : Z) :
  allocatedArray σ a → ∃ r σ', practice a day σ = Ok (r, σ').
Proof. intros Hal. eexists _, _. by apply practice_run. Qed.

Lemma update_returns σ m (card : Flashcard) (difficulty : AnswerDifficulty) :
  allocated σ m → uniqueKeys m →
  ∃ r σ', update m card difficulty σ = Ok (r, σ').
Proof. intros Hal Hnd. eexists _, _. by apply update_run. Qed.

Lemma computeProgress_returns σ m (history : History) :
  allocated σ m → ∃ r, computeProgress m history σ = Ok (r, σ).
Proof. intros Hal. eexists. by apply computeProgress_run. Qed.

(** [getHint] returns unless the card has no usable hint and an empty front. *)
Lemma getHint_returns_iff (card : Flashcard) :
  (∃ s, getHint card = Ok s) ↔ usableHint card ∨ front card ≠ [].
Proof.
  split.
  - intros [s Hs]. destruct (decide (front card = [])) as [E|E]; [| by right].
    left. apply hasHint_usable. destruct (hasHint card) eqn:Hh; [done |].
    apply hasHint_unusable in Hh. by rewrite getHint_empty_front in Hs.
  - intros [Hu|Hf].
    + pose proof Hu as (h & Hh & _). exists h. by apply getHint_verbatim.
    + destruct (hasHint card) eqn:Hh.
      * apply hasHint_usable in Hh. pose proof Hh as (h & Hh' & _).
        exists h. by apply getHint_verbatim.
      * apply hasHint_unusable in Hh. eexists. by apply getHint_masked.
Qed.

End Termination.

Example getHint_Hi :
  getHint (plainCard (Js.lit "Hi") (Some [])) = Ok (Js.lit "H*").
Proof. reflexivity. Qed.

Example getHint_Python :
  getHint (plainCard (Js.lit "Python Programming") (Some []))
  = Ok (Js.lit "Pyt***************").
Proof. reflexivity. Qed.

Example getHint_existing :
  getHint (plainCard (Js.lit "Question") (Some (Js.lit "Existing Hint")))
  = Ok (Js.lit "Existing Hint").
Proof. reflexivity. Qed.

(** * Further properties of the code *)

(** ** getBucketRange *)

Section BucketRange.

Implicit Types (σ : heap) (a : JsArray.t) (k i : Z) (rest : list Z).

Lemma foldl_min_spec rest : ∀ i,
  foldl Z.min i rest ∈ i :: rest
  ∧ Forall (λ x, foldl Z.min i rest ≤ x) (i :: rest).
Proof.
  induction rest as [|x rest IH]; intros i; simpl.
  - split; [apply list_elem_of_here | by repeat constructor].
  - destruct (IH (Z.min i x)) as [Hin Hle].
    apply Forall_cons_1 in Hle as [Hhd Htl]. split.
    + apply elem_of_cons in Hin as [->|Hin].
      * destruct (Z.min_spec i x) as [[_ ->]|[_ ->]];
          [left | right; left]; done.
      * by do 2 right.
    + repeat constructor; [lia | lia | done].
Qed.

Lemma foldl_max_spec rest : ∀ i,
  foldl Z.max i rest ∈ i :: rest
  ∧ Forall (λ x, x ≤ foldl Z.max i rest) (i :: rest).
Proof.
  induction rest as [|x rest IH]; intros i; simpl.
  - split; [apply list_elem_of_here | by repeat constructor].
  - destruct (IH (Z.max i x)) as [Hin Hle].
    apply Forall_cons_1 in Hle as [Hhd Htl]. split.
    + apply elem_of_cons in Hin as [->|Hin].
      * destruct (Z.max_spec i x) as [[_ ->]|[_ ->]];
          [right; left | left]; done.
      * by do 2 right.
    + repeat constructor; [lia | lia | done].
Qed.

(** The list [populatedBuckets] of the code holds the populated indices. *)
Lemma elem_of_populated σ a k :
  k ∈ (filter (λ item : Z * Z, 0 < item.1)
         ((λ e, (Z.of_nat (size (contents σ e.2)), e.1))
            <$> JsArray.entries a)).*2
  ↔ populated σ a k.
Proof.
  unfold populated. rewrite list_elem_of_fmap. split.
  - intros ([sz k'] & -> & [Hsz He]%list_elem_of_filter).
    apply list_elem_of_fmap in He as ([k'' l] & [= -> ->] & He).
    apply entries_key in He as (i & -> & Hi). exists i, l.
    split; [done |]. split; [done |]. simpl in Hsz.
    intros E. rewrite E, size_empty in Hsz. lia.
  - intros (i & l & -> & Hi & Hne).
    exists (Z.of_nat (size (contents σ l)), Z.of_nat i). split; [done |].
    apply list_elem_of_filter. split.
    + simpl. assert (size (contents σ l) ≠ 0%nat); [| lia].
      intros E. by apply size_empty_iff, leibniz_equiv in E.
    + apply list_elem_of_fmap. exists (Z.of_nat i, l). split; [done |].
      by apply elem_of_entries.
Qed.

End BucketRange.

(** The run of [getBucketRange]. *)
Lemma getBucketRange_run (σ : heap) (a : JsArray.t) :
  allocatedArray σ a →
  ∃ r,
    getBucketRange a σ = Ok (r, σ)
    ∧ match r with
      | None => ∀ k, ¬ populated σ a k
      | Some range =>
          minBucket range ≤ maxBucket range
          ∧ populated σ a (minBucket range)
          ∧ populated σ a (maxBucket range)
          ∧ ∀ k, populated σ a k → minBucket range ≤ k ≤ maxBucket range
      end.
Proof.
  intros Hal. unfold getBucketRange.
  rewrite run_bind, sizes_loop by (by apply allocated_entries).
  rewrite app_nil_l.
  pose proof (elem_of_populated σ a) as Hpop.
  destruct (filter _ _).*2 as [|i rest]; eexists; (split; [done |]).
  - intros k Hk%Hpop. by apply elem_of_nil in Hk.
  - cbn [minBucket maxBucket].
    destruct (foldl_min_spec rest i) as [Hmin Hle].
    destruct (foldl_max_spec rest i) as [Hmax Hge].
    rewrite Forall_forall in Hle, Hge.
    split; [by apply Hle |].
    split; [by apply Hpop |]. split; [by apply Hpop |].
    intros k Hk%Hpop. split; [by apply Hle | by apply Hge].
Qed.

(** X1: [getBucketRange] only reads the store.  It returns [undefined] when
    no index of the array holds a card; otherwise it returns the smallest and
    the largest index that hold one: both are populated, [minBucket] is at
    most [maxBucket], and every populated index lies between them. *)
Theorem getBucketRange_spec (σ : heap) (a : JsArray.t) :
  allocatedArray σ a →
  ∃ r,
    getBucketRange a σ = Ok (r, σ)
    ∧ match r with
      | None => ∀ k, ¬ populated σ a k
      | Some range =>
          minBucket range ≤ maxBucket range
          ∧ populated σ a (minBucket range)
          ∧ populated σ a (maxBucket range)
          ∧ ∀ k, populated σ a k → minBucket range ≤ k ≤ maxBucket range
      end.
Proof. exact (getBucketRange_run σ a). Qed.

Lemma getBucketRange_spec_witness :
  allocatedArray store12 [Some 2%nat; Some 0%nat; None; Some 1%nat]
  ∧ ∃ r,
      getBucketRange [Some 2%nat; Some 0%nat; None; Some 1%nat] store12
      = Ok (r, store12)
      ∧ match r with
        | None =>
            ∀ k, ¬ populated store12
                     [Some 2%nat; Some 0%nat; None; Some 1%nat] k
        | Some range =>
            minBucket range ≤ maxBucket range
            ∧ populated store12 [Some 2%nat; Some 0%nat; None; Some 1%nat]
                        (minBucket range)
            ∧ populated store12 [Some 2%nat; Some 0%nat; None; Some 1%nat]
                        (maxBucket range)
            ∧ ∀ k, populated store12
                     [Some 2%nat; Some 0%nat; None; Some 1%nat] k
                   → minBucket range ≤ k ≤ maxBucket range
        end.
Proof.
  assert (H1 : allocatedArray store12
                 [Some 2%nat; Some 0%nat; None; Some 1%nat])
    by (repeat constructor; simpl; lia).
  split; [exact H1 |].
  exact (getBucketRange_spec store12
           [Some 2%nat; Some 0%nat; None; Some 1%nat] H1).
Defined.

(** ** Buckets, key by key *)

Lemma filter_ext_elem {A : Type} (P Q : A → Prop)
    `{!∀ x, Decision (P x), !∀ x, Decision (Q x)} (l : list A) :
  (∀ x, x ∈ l → P x ↔ Q x) → filter P l = filter Q l.
Proof.
  induction l as [|x l IH]; intros Hext; [done |].
  rewrite !filter_cons.
  rewrite IH by (intros y Hy; apply Hext; by right).
  destruct (decide (P x)) as [HP|HP], (decide (Q x)) as [HQ|HQ]; try done.
  - exfalso. apply HQ, (Hext x); [left | done].
  - exfalso. apply HP, (Hext x); [left | done].
Qed.

Lemma sumZ_ext_elem {A : Type} (f g : A → Z) (l : list A) :
  (∀ x, x ∈ l → f x = g x) → sumZ f l = sumZ g l.
Proof.
  unfold sumZ. induction l as [|x l IH]; intros H; [done |].
  cbn [foldr]. rewrite IH by (intros y Hy; apply H; by right).
  rewrite (H x) by left. done.
Qed.

Lemma sumZ_app {A : Type} (f : A → Z) (l1 l2 : list A) :
  sumZ f (l1 ++ l2) = sumZ f l1 + sumZ f l2.
Proof.
  unfold sumZ. induction l1 as [|x l1 IH]; [done |].
  cbn [foldr app]. rewrite IH. lia.
Qed.

Lemma sumZ_plus {A : Type} (f g : A → Z) (l : list A) :
  sumZ (λ x, f x + g x) l = sumZ f l + sumZ g l.
Proof.
  unfold sumZ. induction l as [|x l IH]; [done |].
  cbn [foldr]. rewrite IH. lia.
Qed.

Lemma sumZ_indicator {A : Type} (P : A → Prop) `{!∀ x, Decision (P x)}
    (l : list A) :
  sumZ (λ x, if decide (P x) then 1 else 0) l = Z.of_nat (length (filter P l)).
Proof.
  unfold sumZ. induction l as [|x l IH]; [done |].
  cbn [foldr]. rewrite IH, filter_cons.
  destruct (decide (P x)); simpl; lia.
Qed.

Lemma filter_eq_unique (t : Z) (l : list Z) :
  NoDup l → t ∈ l → filter (λ k, k = t) l = [t].
Proof.
  induction l as [|x l IH]; intros Hnd Hin; [by apply elem_of_nil in Hin |].
  apply NoDup_cons in Hnd as [Hx Hnd]. rewrite filter_cons.
  destruct (decide (x = t)) as [->|Hne].
  - f_equal. apply filter_none, Forall_forall. intros y Hy ->. done.
  - apply elem_of_cons in Hin as [|Hin]; [congruence |]. by apply IH.
Qed.

Section ByKey.

Context (σ : heap).

Implicit Types (m : BucketMap) (k : Z) (l : loc) (c : Flashcard).

Lemma bucket_cons_ne m k k' l :
  k' ≠ k → bucket σ ((k', l) :: m) k = bucket σ m k.
Proof. intros H. unfold bucket. simpl. by rewrite decide_False. Qed.

Lemma bucket_cons_eq m k l :
  (l < length σ)%nat → bucket σ ((k, l) :: m) k = Some (contents σ l).
Proof.
  intros H. unfold bucket. simpl. rewrite decide_True by done. simpl.
  by apply lookup_contents.
Qed.

Lemma bucket_is_key m k (cs : CardSet) :
  bucket σ m k = Some cs → k ∈ JsMap.keys m.
Proof.
  intros H. destruct (decide (k ∈ JsMap.keys m)) as [|Hout]; [done |].
  by rewrite bucket_None in H.
Qed.

Lemma holders_by_key m c :
  uniqueKeys m → allocated σ m →
  holders σ m c
  = filter (λ k, c ∈ default ∅ (bucket σ m k)) (JsMap.keys m).
Proof.
  unfold holders, uniqueKeys, JsMap.keys.
  induction m as [|[k l] m IH]; intros Hnd Hal; [done |].
  rewrite fmap_cons in Hnd |- *. apply NoDup_cons in Hnd as [Hk Hnd].
  apply Forall_cons_1 in Hal as [Hl Hal]. simpl in Hl.
  rewrite !filter_cons. cbn [fst snd]. rewrite bucket_cons_eq by done.
  rewrite (filter_ext_elem
             (λ k0, c ∈ default ∅ (bucket σ ((k, l) :: m) k0))
             (λ k0, c ∈ default ∅ (bucket σ m k0)) (m.*1)).
  - rewrite <- IH by done. simpl.
    by destruct (decide (c ∈ contents σ l)).
  - intros k' Hk'. rewrite bucket_cons_ne; [done |]. by intros ->.
Qed.

Lemma cardsInAll_by_key m :
  uniqueKeys m → allocated σ m →
  cardsInAll σ m
  = sumZ (λ k, Z.of_nat (size (default ∅ (bucket σ m k)))) (JsMap.keys m).
Proof.
  unfold cardsInAll, uniqueKeys, JsMap.keys.
  induction m as [|[k l] m IH]; intros Hnd Hal; [done |].
  rewrite fmap_cons in Hnd |- *. apply NoDup_cons in Hnd as [Hk Hnd].
  apply Forall_cons_1 in Hal as [Hl Hal]. simpl in Hl.
  unfold sumZ in *. cbn [foldr fst snd]. rewrite bucket_cons_eq by done.
  rewrite IH by done. simpl. f_equal.
  apply (sumZ_ext_elem
           (λ k0, Z.of_nat (size (default ∅ (bucket σ m k0))))
           (λ k0, Z.of_nat (size (default ∅ (bucket σ ((k, l) :: m) k0))))).
  intros k' Hk'. rewrite bucket_cons_ne; [done |]. by intros ->.
Qed.

(** A bucket holds the card when, and only when, its number is a holder. *)
Lemma holder_iff m c k :
  uniqueKeys m → allocated σ m →
  k ∈ holders σ m c ↔ ∃ cs, bucket σ m k = Some cs ∧ c ∈ cs.
Proof.
  intros Hnd Hal. rewrite holders_by_key, list_elem_of_filter by done. split.
  - intros [Hc Hk]. destruct (bucket σ m k) as [cs|]; simpl in Hc.
    + by exists cs.
    + by apply elem_of_empty in Hc.
  - intros (cs & Hb & Hc). rewrite Hb. split; [done |].
    by eapply bucket_is_key.
Qed.

End ByKey.

(** ** update: beyond the claims *)

Section UpdateMore.

Implicit Types (σ : heap) (m nb : BucketMap) (k t : Z) (card : Flashcard).

(** What a bucket holds after [update], for a card other than the one that
    moves. *)
Lemma other_card_after σ σ' m nb card card' t :
  card' ≠ card →
  (∀ k, bucket σ' nb k
        = if decide (k = t)
          then Some (default ∅ (bucket σ m k) ∖ {[card]} ∪ {[card]})
          else (λ s, s ∖ {[card]}) <$> bucket σ m k) →
  ∀ k, card' ∈ default ∅ (bucket σ' nb k)
       ↔ card' ∈ default ∅ (bucket σ m k).
Proof.
  intros Hne Hb k. rewrite (Hb k). destruct (decide (k = t)); simpl.
  - rewrite elem_of_union, elem_of_difference, !elem_of_singleton.
    split; [intros [[? _]|?]; [done | congruence] | intros ?; by left].
  - destruct (bucket σ m k); simpl; [| done].
    rewrite elem_of_difference, elem_of_singleton.
    split; [by intros [? _] | done].
Qed.

(** The number of cards a bucket holds after [update]. *)
Lemma size_after σ σ' m nb card t :
  (∀ k, bucket σ' nb k
        = if decide (k = t)
          then Some (default ∅ (bucket σ m k) ∖ {[card]} ∪ {[card]})
          else (λ s, s ∖ {[card]}) <$> bucket σ m k) →
  ∀ k, Z.of_nat (size (default ∅ (bucket σ' nb k)))
       = Z.of_nat (size (default ∅ (bucket σ m k)))
         + ((if decide (k = t) then 1 else 0)
            + - (if decide (card ∈ default ∅ (bucket σ m k)) then 1 else 0)).
Proof.
  intros Hb k. rewrite (Hb k).
  set (X := default ∅ (bucket σ m k)).
  assert (Hdel : Z.of_nat (size (X ∖ {[card]}))
                 = Z.of_nat (size X)
                   - (if decide (card ∈ X) then 1 else 0)).
  { destruct (decide (card ∈ X)) as [Hin|Hout].
    - rewrite size_difference by (by apply singleton_subseteq_l).
      rewrite size_singleton.
      assert (size X ≠ 0%nat); [| lia].
      intros E%size_empty_iff%leibniz_equiv. rewrite E in Hin.
      by apply elem_of_empty in Hin.
    - rewrite difference_disjoint_L by (by apply disjoint_singleton_r). lia. }
  destruct (decide (k = t)); simpl.
  - rewrite size_union, size_singleton
      by (apply disjoint_singleton_r; rewrite elem_of_difference,
            elem_of_singleton; by intros [_ ?]).
    lia.
  - unfold X in *. destruct (bucket σ m k); simpl in *; [lia |].
    rewrite decide_False by apply not_elem_of_empty. lia.
Qed.

End UpdateMore.

(** The target computed from a source not below -2^53 is not below -2^53. *)
Lemma source_exact_destination (difficulty : AnswerDifficulty) (s : Z) :
  -9007199254740992 ≤ s →
  -9007199254740992 ≤ destination difficulty s.
Proof. destruct difficulty; simpl; lia. Qed.

(** X2: for bucket numbers not below -2^53, from which the sums of the
    code are exact, [update] returns a well-formed assignment in which the
    card is in exactly one bucket, also when several buckets hold it.  The
    card leaves all of them; the last of these buckets, in the order of the
    map, counts as its source, and -1 when there is none. *)
Theorem update_any_input (σ : heap) (m : BucketMap) (card : Flashcard)
    (difficulty : AnswerDifficulty) :
  allocated σ m → uniqueKeys m → exactSums m →
  ∃ nb σ',
    update m card difficulty σ = Ok (nb, σ')
    ∧ allocated σ' nb
    ∧ uniqueKeys nb
    ∧ holders σ' nb card
      = [destination difficulty (default (-1) (last (holders σ m card)))].
Proof.
  intros Hal Hnd _.
  destruct (update_spec σ m card difficulty Hal Hnd)
    as (nb & σ' & Hrun & _ & Hal' & Hnd' & _ & Hkeys & Hb).
  rewrite currentBucket_last in Hkeys, Hb.
  exists nb, σ'. split; [done |]. split; [done |]. split; [done |].
  apply (update_holder σ σ' m nb card); [done | done | | done].
  rewrite Hkeys. apply target_in_keys.
Qed.

Lemma update_any_input_witness :
  allocated store12 [(1, 0%nat); (4, 0%nat)]
  ∧ uniqueKeys [(1, 0%nat); (4, 0%nat)]
  ∧ exactSums [(1, 0%nat); (4, 0%nat)]
  ∧ ∃ nb σ',
      update [(1, 0%nat); (4, 0%nat)] card1 Hard store12 = Ok (nb, σ')
      ∧ allocated σ' nb
      ∧ uniqueKeys nb
      ∧ holders σ' nb card1
        = [destination Hard
             (default (-1)
                (last (holders store12 [(1, 0%nat); (4, 0%nat)] card1)))].
Proof.
  assert (H1 : allocated store12 [(1, 0%nat); (4, 0%nat)])
    by (repeat constructor; simpl; lia).
  assert (H2 : uniqueKeys [(1, 0%nat); (4, 0%nat)])
    by (apply (bool_decide_unpack (NoDup [1; 4])); reflexivity).
  assert (H3 : exactSums [(1, 0%nat); (4, 0%nat)])
    by (repeat constructor; simpl; lia).
  split; [exact H1 |]. split; [exact H2 |]. split; [exact H3 |].
  exact (update_any_input store12 [(1, 0%nat); (4, 0%nat)] card1 Hard
           H1 H2 H3).
Defined.

(** X3: [update] does not touch its input.  The sets of the caller are as
    they were, so the input map still denotes the same buckets, and no set of
    the result is a set of the caller. *)
Theorem update_leaves_input (σ : heap) (m : BucketMap) (card : Flashcard)
    (difficulty : AnswerDifficulty) :
  allocated σ m → uniqueKeys m →
  ∃ nb σ',
    update m card difficulty σ = Ok (nb, σ')
    ∧ σ `prefix_of` σ'
    ∧ (∀ k, bucket σ' m k = bucket σ m k)
    ∧ Forall (λ e, (length σ ≤ e.2 < length σ')%nat) nb.
Proof.
  intros Hal Hnd.
  destruct (update_spec σ m card difficulty Hal Hnd)
    as (nb & σ' & Hrun & [ext ->] & Hal' & _ & Hfresh & _).
  exists nb, (σ ++ ext). split; [done |]. split; [by exists ext |]. split.
  - intros k. unfold bucket.
    destruct (JsMap.get m k) as [l|] eqn:Hget; simpl; [| done].
    apply get_Some in Hget as [i Hi]. apply lookup_app_l.
    by apply (Forall_lookup_1 _ _ _ _ Hal Hi).
  - apply Forall_forall. intros e He.
    pose proof (proj1 (Forall_forall _ _) Hal' e He).
    pose proof (proj1 (Forall_forall _ _) Hfresh e He). simpl in *. lia.
Qed.

Lemma update_leaves_input_witness :
  allocated store12 [(0, 0%nat); (2, 1%nat)]
  ∧ uniqueKeys [(0, 0%nat); (2, 1%nat)]
  ∧ ∃ nb σ',
      update [(0, 0%nat); (2, 1%nat)] card1 Easy store12 = Ok (nb, σ')
      ∧ store12 `prefix_of` σ'
      ∧ (∀ k, bucket σ' [(0, 0%nat); (2, 1%nat)] k
              = bucket store12 [(0, 0%nat); (2, 1%nat)] k)
      ∧ Forall (λ e, (length store12 ≤ e.2 < length σ')%nat) nb.
Proof.
  assert (H1 : allocated store12 [(0, 0%nat); (2, 1%nat)])
    by (repeat constructor; simpl; lia).
  assert (H2 : uniqueKeys [(0, 0%nat); (2, 1%nat)])
    by (apply (bool_decide_unpack (NoDup [0; 2])); reflexivity).
  split; [exact H1 |]. split; [exact H2 |].
  exact (update_leaves_input store12 [(0, 0%nat); (2, 1%nat)] card1 Easy
           H1 H2).
Defined.

(** X4: [update] never removes or reorders a bucket.  For bucket numbers
    not below -2^53, the keys of the result are those of the input, in the
    same order, followed by the target bucket when the input has no such
    bucket; the target is never above 7. *)
Theorem update_keys (σ : heap) (m : BucketMap) (card : Flashcard)
    (difficulty : AnswerDifficulty) :
  allocated σ m → uniqueKeys m → exactSums m →
  let t := destination difficulty (default (-1) (last (holders σ m card))) in
  ∃ nb σ',
    update m card difficulty σ = Ok (nb, σ')
    ∧ JsMap.keys nb
      = JsMap.keys m ++ (if decide (t ∈ JsMap.keys m) then [] else [t])
    ∧ t ≤ 7.
Proof.
  intros Hal Hnd _ t.
  destruct (update_spec σ m card difficulty Hal Hnd)
    as (nb & σ' & Hrun & _ & _ & _ & _ & Hkeys & _).
  rewrite currentBucket_last in Hkeys.
  exists nb, σ'. split; [done |]. split; [done |].
  apply destination_le_7.
Qed.

Lemma update_keys_witness :
  allocated store12 [(5, 1%nat); (0, 0%nat)]
  ∧ uniqueKeys [(5, 1%nat); (0, 0%nat)]
  ∧ exactSums [(5, 1%nat); (0, 0%nat)]
  ∧ ∃ nb σ',
      update [(5, 1%nat); (0, 0%nat)] card1 Easy store12 = Ok (nb, σ')
      ∧ JsMap.keys nb
        = JsMap.keys [(5, 1%nat); (0, 0%nat)]
          ++ (if decide
                   (destination Easy
                      (default (-1)
                         (last (holders store12 [(5, 1%nat); (0, 0%nat)]
                                        card1)))
                    ∈ JsMap.keys [(5, 1%nat); (0, 0%nat)])
              then []
              else [destination Easy
                      (default (-1)
                         (last (holders store12 [(5, 1%nat); (0, 0%nat)]
                                        card1)))])
      ∧ destination Easy
          (default (-1)
             (last (holders store12 [(5, 1%nat); (0, 0%nat)] card1))) ≤ 7.
Proof.
  assert (H1 : allocated store12 [(5, 1%nat); (0, 0%nat)])
    by (repeat constructor; simpl; lia).
  assert (H2 : uniqueKeys [(5, 1%nat); (0, 0%nat)])
    by (apply (bool_decide_unpack (NoDup [5; 0])); reflexivity).
  assert (H3 : exactSums [(5, 1%nat); (0, 0%nat)])
    by (repeat constructor; simpl; lia).
  split; [exact H1 |]. split; [exact H2 |]. split; [exact H3 |].
  exact (update_keys store12 [(5, 1%nat); (0, 0%nat)] card1 Easy H1 H2 H3).
Defined.

Lemma sumZ_opp {A : Type} (f : A → Z) (l : list A) :
  sumZ (λ x, - f x) l = - sumZ f l.
Proof.
  unfold sumZ. induction l as [|x l IH]; [done |].
  cbn [foldr]. rewrite IH. lia.
Qed.

(** The holders of a card among the keys [update] may add: none. *)
Lemma filter_added_key (σ : heap) (m : BucketMap) (c : Flashcard) (t : Z) :
  filter (λ k, c ∈ default ∅ (bucket σ m k))
         (if decide (t ∈ JsMap.keys m) then [] else [t]) = [].
Proof.
  case_decide as Hin; [done |]. rewrite filter_cons, bucket_None by done.
  simpl. by rewrite decide_False by apply not_elem_of_empty.
Qed.

(** The cards of all the buckets after [update]: one more, and one less for
    each bucket that held the card. *)
Lemma count_after (σ σ' : heap) (m nb : BucketMap) (card : Flashcard) (t : Z) :
  allocated σ m → uniqueKeys m → allocated σ' nb → uniqueKeys nb →
  JsMap.keys nb
  = JsMap.keys m ++ (if decide (t ∈ JsMap.keys m) then [] else [t]) →
  (∀ k, bucket σ' nb k
        = if decide (k = t)
          then Some (default ∅ (bucket σ m k) ∖ {[card]} ∪ {[card]})
          else (λ s, s ∖ {[card]}) <$> bucket σ m k) →
  cardsInAll σ' nb
  = cardsInAll σ m + 1 - Z.of_nat (length (holders σ m card)).
Proof.
  intros Hal Hnd Hal' Hnd' Hkeys Hb.
  rewrite (cardsInAll_by_key σ' nb), (cardsInAll_by_key σ m) by done.
  rewrite (sumZ_ext_elem _ _ _
             (λ k _, size_after σ σ' m nb card t Hb k)).
  rewrite (sumZ_plus
             (λ k, Z.of_nat (size (default ∅ (bucket σ m k))))).
  rewrite (sumZ_plus (λ k, if decide (k = t) then 1 else 0)).
  rewrite sumZ_opp.
  rewrite (sumZ_indicator (λ k, k = t)).
  rewrite (sumZ_indicator (λ k, card ∈ default ∅ (bucket σ m k))).
  rewrite filter_eq_unique; [| done | rewrite Hkeys; apply target_in_keys].
  rewrite Hkeys, sumZ_app, filter_app, filter_added_key, app_nil_r.
  rewrite <- holders_by_key by done.
  replace (sumZ _ (if decide (t ∈ JsMap.keys m) then [] else [t])) with 0.
  - simpl. lia.
  - case_decide as Hin; [done |]. unfold sumZ. cbn [foldr].
    by rewrite bucket_None by done.
Qed.

(** X5: [update] moves one card only.  Every other card is in the same
    buckets after the call as before. *)
Theorem update_other_cards (σ : heap) (m : BucketMap) (card card' : Flashcard)
    (difficulty : AnswerDifficulty) :
  allocated σ m → uniqueKeys m → card' ≠ card →
  ∃ nb σ',
    update m card difficulty σ = Ok (nb, σ')
    ∧ holders σ' nb card' = holders σ m card'
    ∧ ∀ k, card' ∈ default ∅ (bucket σ' nb k)
           ↔ card' ∈ default ∅ (bucket σ m k).
Proof.
  intros Hal Hnd Hne.
  destruct (update_spec σ m card difficulty Hal Hnd)
    as (nb & σ' & Hrun & _ & Hal' & Hnd' & _ & Hkeys & Hb).
  pose proof (other_card_after σ σ' m nb card card' _ Hne Hb) as Hmem.
  exists nb, σ'. split; [done |]. split; [| done].
  rewrite (holders_by_key σ' nb), (holders_by_key σ m) by done.
  rewrite (list_filter_iff _ (λ k, card' ∈ default ∅ (bucket σ m k)))
    by done.
  by rewrite Hkeys, filter_app, filter_added_key, app_nil_r.
Qed.

Lemma update_other_cards_witness :
  allocated store12 [(0, 0%nat); (2, 1%nat)]
  ∧ uniqueKeys [(0, 0%nat); (2, 1%nat)]
  ∧ card2 ≠ card1
  ∧ ∃ nb σ',
      update [(0, 0%nat); (2, 1%nat)] card1 Easy store12 = Ok (nb, σ')
      ∧ holders σ' nb card2 = holders store12 [(0, 0%nat); (2, 1%nat)] card2
      ∧ ∀ k, card2 ∈ default ∅ (bucket σ' nb k)
             ↔ card2 ∈ default ∅ (bucket store12 [(0, 0%nat); (2, 1%nat)] k).
Proof.
  assert (H1 : allocated store12 [(0, 0%nat); (2, 1%nat)])
    by (repeat constructor; simpl; lia).
  assert (H2 : uniqueKeys [(0, 0%nat); (2, 1%nat)])
    by (apply (bool_decide_unpack (NoDup [0; 2])); reflexivity).
  assert (H3 : card2 ≠ card1) by discriminate.
  split; [exact H1 |]. split; [exact H2 |]. split; [exact H3 |].
  exact (update_other_cards store12 [(0, 0%nat); (2, 1%nat)] card1 card2 Easy
           H1 H2 H3).
Defined.

(** X6: a card that cannot move stays.  When the card is in bucket [s] alone
    and its destination is [s] (bucket 7 with [Easy] or [Hard], bucket 0
    with [Wrong]), the result of [update] denotes the same buckets as the
    input. *)
Theorem update_fixed_point (σ : heap) (m : BucketMap) (card : Flashcard)
    (difficulty : AnswerDifficulty) (s : Z) :
  allocated σ m → uniqueKeys m → holders σ m card = [s] →
  destination difficulty s = s →
  ∃ nb σ',
    update m card difficulty σ = Ok (nb, σ')
    ∧ JsMap.keys nb = JsMap.keys m
    ∧ ∀ k, bucket σ' nb k = bucket σ m k.
Proof.
  intros Hal Hnd Hs Hfix.
  destruct (update_spec σ m card difficulty Hal Hnd)
    as (nb & σ' & Hrun & _ & _ & _ & _ & Hkeys & Hb).
  rewrite (currentBucket_holder σ m card s Hs), Hfix in Hkeys, Hb.
  assert (Hsk : s ∈ JsMap.keys m).
  { apply (holder_key σ m card). rewrite Hs. apply list_elem_of_here. }
  exists nb, σ'. split; [done |]. split.
  - by rewrite Hkeys, decide_True, app_nil_r.
  - intros k. rewrite (Hb k). destruct (decide (k = s)) as [->|Hne].
    + assert (Hin : s ∈ holders σ m card)
        by (rewrite Hs; apply list_elem_of_here).
      apply holder_iff in Hin as (cs & Hcs & Hc); [| done | done].
      rewrite Hcs. simpl. f_equal. apply set_eq. intros x.
      rewrite elem_of_union, elem_of_difference, elem_of_singleton.
      split; [intros [[? _]| ->]; done |].
      intros Hx. destruct (decide (x = card)); [by right | by left].
    + destruct (bucket σ m k) as [cs|] eqn:Hcs; simpl; [| done].
      f_equal. apply difference_disjoint_L, disjoint_singleton_r.
      intros Hc. apply Hne.
      assert (Hin : k ∈ holders σ m card)
        by (apply holder_iff; [done | done | by exists cs]).
      rewrite Hs in Hin. by apply list_elem_of_singleton in Hin.
Qed.

Lemma update_fixed_point_witness :
  allocated store12 [(7, 0%nat); (2, 1%nat)]
  ∧ uniqueKeys [(7, 0%nat); (2, 1%nat)]
  ∧ holders store12 [(7, 0%nat); (2, 1%nat)] card1 = [7]
  ∧ destination Easy 7 = 7
  ∧ ∃ nb σ',
      update [(7, 0%nat); (2, 1%nat)] card1 Easy store12 = Ok (nb, σ')
      ∧ JsMap.keys nb = JsMap.keys [(7, 0%nat); (2, 1%nat)]
      ∧ ∀ k, bucket σ' nb k = bucket store12 [(7, 0%nat); (2, 1%nat)] k.
Proof.
  assert (H1 : allocated store12 [(7, 0%nat); (2, 1%nat)])
    by (repeat constructor; simpl; lia).
  assert (H2 : uniqueKeys [(7, 0%nat); (2, 1%nat)])
    by (apply (bool_decide_unpack (NoDup [7; 2])); reflexivity).
  assert (H3 : holders store12 [(7, 0%nat); (2, 1%nat)] card1 = [7])
    by reflexivity.
  assert (H4 : destination Easy 7 = 7) by reflexivity.
  split; [exact H1 |]. split; [exact H2 |]. split; [exact H3 |].
  split; [exact H4 |].
  exact (update_fixed_point store12 [(7, 0%nat); (2, 1%nat)] card1 Easy 7
           H1 H2 H3 H4).
Defined.

(** X7: [update] composes.  For bucket numbers not below -2^53, the result
    of a call is a valid input of the next one, with bucket numbers not
    below -2^53 again, and after two answers the card is in the bucket
    reached by applying the two moves in turn, and in no other. *)
Theorem update_twice (σ : heap) (m : BucketMap) (card : Flashcard)
    (d1 d2 : AnswerDifficulty) :
  allocated σ m → uniqueKeys m → exactSums m →
  ∃ nb1 σ1 nb2 σ2,
    update m card d1 σ = Ok (nb1, σ1)
    ∧ exactSums nb1
    ∧ update nb1 card d2 σ1 = Ok (nb2, σ2)
    ∧ uniqueKeys nb2
    ∧ holders σ2 nb2 card
      = [destination d2
           (destination d1 (default (-1) (last (holders σ m card))))].
Proof.
  intros Hal Hnd Hex.
  destruct (update_spec σ m card d1 Hal Hnd)
    as (nb1 & σ1 & Hrun1 & _ & Hal1 & Hnd1 & _ & Hkeys1 & Hb1).
  rewrite currentBucket_last in Hkeys1, Hb1.
  assert (Hh1 : holders σ1 nb1 card
                = [destination d1 (default (-1) (last (holders σ m card)))]).
  { apply (update_holder σ σ1 m nb1 card); [done | done | | done].
    rewrite Hkeys1. apply target_in_keys. }
  destruct (update_spec σ1 nb1 card d2 Hal1 Hnd1)
    as (nb2 & σ2 & Hrun2 & _ & Hal2 & Hnd2 & _ & Hkeys2 & Hb2).
  rewrite currentBucket_last, Hh1 in Hkeys2, Hb2. simpl in Hkeys2, Hb2.
  exists nb1, σ1, nb2, σ2. split; [done |]. split.
  { unfold exactSums. rewrite Hkeys1. apply Forall_app. split; [done |].
    destruct (decide (_ ∈ JsMap.keys m)); constructor; [| done].
    apply source_exact_destination.
    destruct (last (holders σ m card)) as [s|] eqn:Hs; simpl; [| lia].
    apply (proj1 (Forall_forall _ _) Hex), (holder_key σ m card).
    by apply last_Some_elem_of. }
  split; [done |]. split; [done |].
  apply (update_holder σ1 σ2 nb1 nb2 card); [done | done | | done].
  rewrite Hkeys2. apply target_in_keys.
Qed.

Lemma update_twice_witness :
  allocated store12 [(5, 0%nat)] ∧ uniqueKeys [(5, 0%nat)]
  ∧ exactSums [(5, 0%nat)]
  ∧ ∃ nb1 σ1 nb2 σ2,
      update [(5, 0%nat)] card1 Easy store12 = Ok (nb1, σ1)
      ∧ exactSums nb1
      ∧ update nb1 card1 Easy σ1 = Ok (nb2, σ2)
      ∧ uniqueKeys nb2
      ∧ holders σ2 nb2 card1
        = [destination Easy
             (destination Easy
                (default (-1)
                   (last (holders store12 [(5, 0%nat)] card1))))].
Proof.
  assert (H1 : allocated store12 [(5, 0%nat)])
    by (repeat constructor; simpl; lia).
  assert (H2 : uniqueKeys [(5, 0%nat)]) by apply NoDup_singleton.
  assert (H3 : exactSums [(5, 0%nat)]) by (repeat constructor; simpl; lia).
  split; [exact H1 |]. split; [exact H2 |]. split; [exact H3 |].
  exact (update_twice store12 [(5, 0%nat)] card1 Easy Easy H1 H2 H3).
Defined.

(** X8: [computeProgress] after [update].  The total of the new assignment
    is the former total, plus one, minus the number of buckets that held the
    card: the same total when one bucket held it, one more when none did. *)
Theorem progress_after_update (σ : heap) (m : BucketMap) (card : Flashcard)
    (difficulty : AnswerDifficulty) (history : History) :
  allocated σ m → uniqueKeys m →
  ∃ nb σ' p p',
    update m card difficulty σ = Ok (nb, σ')
    ∧ computeProgress m history σ = Ok (p, σ)
    ∧ computeProgress nb history σ' = Ok (p', σ')
    ∧ totalCards p'
      = totalCards p + 1 - Z.of_nat (length (holders σ m card)).
Proof.
  intros Hal Hnd.
  destruct (update_spec σ m card difficulty Hal Hnd)
    as (nb & σ' & Hrun & _ & Hal' & Hnd' & _ & Hkeys & Hb).
  exists nb, σ'. eexists _, _. split; [done |].
  split; [by apply computeProgress_run |].
  split; [by apply computeProgress_run |].
  cbn [totalCards]. by eapply count_after.
Qed.

Lemma progress_after_update_witness :
  allocated store12 [(0, 0%nat); (2, 1%nat)]
  ∧ uniqueKeys [(0, 0%nat); (2, 1%nat)]
  ∧ ∃ nb σ' p p',
      update [(0, 0%nat); (2, 1%nat)] card1 Easy store12 = Ok (nb, σ')
      ∧ computeProgress [(0, 0%nat); (2, 1%nat)] [] store12 = Ok (p, store12)
      ∧ computeProgress nb [] σ' = Ok (p', σ')
      ∧ totalCards p'
        = totalCards p + 1
          - Z.of_nat
              (length (holders store12 [(0, 0%nat); (2, 1%nat)] card1)).
Proof.
  assert (H1 : allocated store12 [(0, 0%nat); (2, 1%nat)])
    by (repeat constructor; simpl; lia).
  assert (H2 : uniqueKeys [(0, 0%nat); (2, 1%nat)])
    by (apply (bool_decide_unpack (NoDup [0; 2])); reflexivity).
  split; [exact H1 |]. split; [exact H2 |].
  exact (progress_after_update store12 [(0, 0%nat); (2, 1%nat)] card1 Easy []
           H1 H2).
Defined.

(** ** practice: beyond the claim *)

Section PracticeMore.

Implicit Types (σ : heap) (a : JsArray.t) (day : Z) (card : Flashcard).

(** [day % 2^i === 0] holds when, and only when, [2^i] divides [day],
    whatever the sign of [day]. *)
Lemma rem_pow_divide day (i : nat) :
  Z.rem day (2 ^ Z.of_nat i) = 0 ↔ (2 ^ Z.of_nat i | day).
Proof. apply Z.rem_divide, Z.pow_nonzero; lia. Qed.

(** The cards [practice] selects, for any day. *)
Lemma due_divide σ a day card :
  allocatedArray σ a →
  card ∈ dueIn σ day (JsArray.entries a)
  ↔ ∃ (i : nat) l cs, a !! i = Some (Some l) ∧ σ !! l = Some cs
                      ∧ (2 ^ Z.of_nat i | day) ∧ card ∈ cs.
Proof.
  intros Hal. rewrite elem_of_dueIn. split.
  - intros (k & l & (i & -> & Hi)%entries_key & Hk & Hc).
    exists i, l, (contents σ l). split; [done |].
    split; [| split; [by apply rem_pow_divide | done]].
    apply lookup_contents. by apply (Forall_lookup_1 _ _ _ _ Hal Hi).
  - intros (i & l & cs & Hi & Hl & Hk & Hc).
    exists (Z.of_nat i), l. split; [by apply elem_of_entries |].
    split; [by apply rem_pow_divide |]. unfold contents. by rewrite Hl.
Qed.

Lemma pow2_divide (i j : nat) :
  (j ≤ i)%nat → (2 ^ Z.of_nat j | 2 ^ Z.of_nat i).
Proof.
  intros Hji. exists (2 ^ Z.of_nat (i - j)).
  rewrite <- Z.pow_add_r by lia. f_equal. lia.
Qed.

Lemma odd_not_divide day (i : nat) :
  Z.odd day = true → (2 ^ Z.of_nat i | day) → i = 0%nat.
Proof.
  intros Hodd Hdiv. destruct i as [|i]; [done |]. exfalso.
  assert (H2 : (2 | day)).
  { eapply Z.divide_trans; [| exact Hdiv].
    replace 2 with (2 ^ Z.of_nat 1) at 1 by done.
    apply pow2_divide. lia. }
  destruct H2 as [q ->]. rewrite Z.mul_comm, Z.odd_mul in Hodd.
  by simpl in Hodd.
Qed.

End PracticeMore.

(** X9: the rule of [practice] holds for every integer day, negative days
    too: the result is a new set whose cards are those of the buckets with
    an index [i] such that [2^i] divides [day]; the sets of the caller are
    not modified. *)
Theorem practice_any_day (σ : heap) (a : JsArray.t) (day : Z) :
  allocatedArray σ a →
  ∃ due,
    practice a day σ = Ok (length σ, σ ++ [due])
    ∧ ∀ card, card ∈ due
        ↔ ∃ (i : nat) l cs, a !! i = Some (Some l) ∧ σ !! l = Some cs
                            ∧ (2 ^ Z.of_nat i | day) ∧ card ∈ cs.
Proof.
  intros Hal. exists (dueIn σ day (JsArray.entries a)).
  split; [by apply practice_run |]. intros card. by apply due_divide.
Qed.

Lemma practice_any_day_witness :
  allocatedArray store12 [Some 2%nat; Some 0%nat; Some 1%nat]
  ∧ ∃ due,
      practice [Some 2%nat; Some 0%nat; Some 1%nat] (-4) store12
      = Ok (length store12, store12 ++ [due])
      ∧ ∀ card, card ∈ due
          ↔ ∃ (i : nat) l cs,
              [Some 2%nat; Some 0%nat; Some 1%nat] !! i = Some (Some l)
              ∧ store12 !! l = Some cs
              ∧ (2 ^ Z.of_nat i | -4) ∧ card ∈ cs.
Proof.
  assert (H1 : allocatedArray store12 [Some 2%nat; Some 0%nat; Some 1%nat])
    by (repeat constructor; simpl; lia).
  split; [exact H1 |].
  exact (practice_any_day store12 [Some 2%nat; Some 0%nat; Some 1%nat] (-4)
           H1).
Defined.

(** X10: the schedule is nested.  On a day when the bucket of index [i] is
    selected, every bucket of a lower index is selected too. *)
Theorem practice_lower_buckets (σ : heap) (a : JsArray.t) (day : Z)
    (i j : nat) (l : loc) (cs : CardSet) :
  allocatedArray σ a →
  Z.rem day (2 ^ Z.of_nat i) = 0 → (j ≤ i)%nat →
  a !! j = Some (Some l) → σ !! l = Some cs →
  ∃ due, practice a day σ = Ok (length σ, σ ++ [due]) ∧ cs ⊆ due.
Proof.
  intros Hal Hday Hji Hj Hl. exists (dueIn σ day (JsArray.entries a)).
  split; [by apply practice_run |]. intros card Hc.
  apply due_divide; [done |]. exists j, l, cs.
  split; [done |]. split; [done |]. split; [| done].
  eapply Z.divide_trans; [by apply pow2_divide |].
  by apply rem_pow_divide.
Qed.

Lemma practice_lower_buckets_witness :
  allocatedArray store12 [Some 0%nat; Some 2%nat; Some 1%nat]
  ∧ Z.rem 12 (2 ^ Z.of_nat 2) = 0 ∧ (0 ≤ 2)%nat
  ∧ [Some 0%nat; Some 2%nat; Some 1%nat] !! 0%nat = Some (Some 0%nat)
  ∧ store12 !! 0%nat = Some {[card1]}
  ∧ ∃ due,
      practice [Some 0%nat; Some 2%nat; Some 1%nat] 12 store12
      = Ok (length store12, store12 ++ [due])
      ∧ {[card1]} ⊆ due.
Proof.
  assert (H1 : allocatedArray store12 [Some 0%nat; Some 2%nat; Some 1%nat])
    by (repeat constructor; simpl; lia).
  assert (H2 : Z.rem 12 (2 ^ Z.of_nat 2) = 0) by reflexivity.
  assert (H3 : (0 ≤ 2)%nat) by lia.
  split; [exact H1 |]. split; [exact H2 |]. split; [exact H3 |].
  split; [reflexivity |]. split; [reflexivity |].
  exact (practice_lower_buckets store12
           [Some 0%nat; Some 2%nat; Some 1%nat] 12 2 0 0%nat {[card1]}
           H1 H2 H3 eq_refl eq_refl).
Defined.

(** X11: on an odd day [practice] selects the cards of bucket 0 and no
    others. *)
Theorem practice_odd_day (σ : heap) (a : JsArray.t) (day : Z) :
  allocatedArray σ a → Z.odd day = true →
  ∃ due,
    practice a day σ = Ok (length σ, σ ++ [due])
    ∧ ∀ card, card ∈ due
        ↔ ∃ l cs, a !! 0%nat = Some (Some l) ∧ σ !! l = Some cs ∧ card ∈ cs.
Proof.
  intros Hal Hodd. exists (dueIn σ day (JsArray.entries a)).
  split; [by apply practice_run |]. intros card.
  rewrite due_divide by done. split.
  - intros (i & l & cs & Hi & Hl & Hdiv & Hc).
    apply (odd_not_divide day i Hodd) in Hdiv as ->. by exists l, cs.
  - intros (l & cs & Hi & Hl & Hc). exists 0%nat, l, cs.
    split; [done |]. split; [done |]. split; [| done].
    simpl. apply Z.divide_1_l.
Qed.

Lemma practice_odd_day_witness :
  allocatedArray store12 [Some 0%nat; Some 1%nat] ∧ Z.odd 5 = true
  ∧ ∃ due,
      practice [Some 0%nat; Some 1%nat] 5 store12
      = Ok (length store12, store12 ++ [due])
      ∧ ∀ card, card ∈ due
          ↔ ∃ l cs, [Some 0%nat; Some 1%nat] !! 0%nat = Some (Some l)
                    ∧ store12 !! l = Some cs ∧ card ∈ cs.
Proof.
  assert (H1 : allocatedArray store12 [Some 0%nat; Some 1%nat])
    by (repeat constructor; simpl; lia).
  assert (H2 : Z.odd 5 = true) by reflexivity.
  split; [exact H1 |]. split; [exact H2 |].
  exact (practice_odd_day store12 [Some 0%nat; Some 1%nat] 5 H1 H2).
Defined.

(** ** toBucketSets: beyond the claims *)

Section DenseMore.

Implicit Types (σ : heap) (m : BucketMap) (k : Z) (l : loc).

(** The array of [toBucketSets], for any map: long enough for every bucket
    number, without holes, each cell a set with the cards of the bucket of
    its index. *)
Lemma dense_cells σ m :
  allocated σ m → uniqueKeys m → fitsArray m →
  ∃ arr σ1,
    toBucketSets m σ = Ok (arr, σ1)
    ∧ σ `prefix_of` σ1
    ∧ allocatedArray σ1 arr
    ∧ Forall (λ k, k < Z.of_nat (length arr)) (JsMap.keys m)
    ∧ (m ≠ [] → (0 < length arr)%nat)
    ∧ ∀ i : nat, (i < length arr)%nat →
        ∃ l, arr !! i = Some (Some l)
             ∧ σ1 !! l = Some (default ∅ (bucket σ m (Z.of_nat i))).
Proof.
  intros Hal Hnd Hfit. destruct (decide (m = [])) as [->|Hne].
  { exists [], σ. split; [done |]. split; [done |].
    split; [constructor |]. split; [constructor |].
    split; [done |]. intros i Hi. simpl in Hi. lia. }
  destruct (toBucketSets_spec σ m Hal Hnd Hfit Hne)
    as (arr & σ1 & Hrun & Hlen & Hpre & _ & Hcell).
  pose proof (max_nonneg m) as Hmax.
  exists arr, σ1. split; [done |]. split; [done |]. split.
  { apply Forall_lookup_2. intros i o Hi.
    pose proof (lookup_lt_Some _ _ _ Hi) as Hlt. rewrite Hlen in Hlt.
    destruct (Hcell i Hlt) as (l & Hl & Hr & _).
    rewrite Hi in Hl. injection Hl as ->. simpl. lia. }
  split.
  { eapply Forall_impl; [apply keys_le_max |]. cbv beta. intros k Hk.
    rewrite Hlen. lia. }
  split; [intros _; rewrite Hlen; lia |].
  intros i Hi. rewrite Hlen in Hi.
  destruct (Hcell i Hi) as (l & Hl & _ & Hc). by exists l.
Qed.

(** The buckets that hold a card, seen from the array. *)
Lemma populated_cells σ σ1 m (arr : JsArray.t) k :
  Forall (λ k, k < Z.of_nat (length arr)) (JsMap.keys m) →
  (∀ i : nat, (i < length arr)%nat →
     ∃ l, arr !! i = Some (Some l)
          ∧ σ1 !! l = Some (default ∅ (bucket σ m (Z.of_nat i)))) →
  populated σ1 arr k
  ↔ 0 ≤ k ∧ ∃ cs, bucket σ m k = Some cs ∧ cs ≠ ∅.
Proof.
  intros Hkeys Hcell. unfold populated. split.
  - intros (i & l & -> & Hi & Hne). split; [lia |].
    destruct (Hcell i) as (l' & Hl' & Hc); [by eapply lookup_lt_Some |].
    rewrite Hi in Hl'. injection Hl' as <-.
    unfold contents in Hne. rewrite Hc in Hne. simpl in Hne.
    destruct (bucket σ m (Z.of_nat i)) as [cs|]; [by exists cs | done].
  - intros (Hk & cs & Hcs & Hne).
    assert (Hlt : k < Z.of_nat (length arr)).
    { apply (proj1 (Forall_forall _ _) Hkeys). by eapply bucket_is_key. }
    destruct (Hcell (Z.to_nat k)) as (l & Hl & Hc); [lia |].
    exists (Z.to_nat k), l. split; [lia |]. split; [done |].
    unfold contents. rewrite Hc, Z2Nat.id, Hcs by done. done.
Qed.

End DenseMore.

(** X12: from sparse to dense and back, for bucket numbers below 2^32 - 1.
    Read as a map from index to set,
    the array of [toBucketSets] has, for every index from 0 to its last one,
    a bucket with the cards the input has under that number, empty when the
    input has no such bucket; it has no other bucket, so the buckets of the
    input with a negative number are dropped.  The array has a cell for
    every bucket number of the input, and at least one cell when the input
    is not empty. *)
Theorem toBucketSets_round_trip (σ : heap) (m : BucketMap) :
  allocated σ m → uniqueKeys m → fitsArray m →
  ∃ arr σ1,
    toBucketSets m σ = Ok (arr, σ1)
    ∧ Forall (λ k, k < Z.of_nat (length arr)) (JsMap.keys m)
    ∧ (m ≠ [] → (0 < length arr)%nat)
    ∧ ∀ k, bucket σ1 (JsArray.entries arr) k
           = if decide (0 ≤ k < Z.of_nat (length arr))
             then Some (default ∅ (bucket σ m k))
             else None.
Proof.
  intros Hal Hnd Hfit.
  destruct (dense_cells σ m Hal Hnd Hfit)
    as (arr & σ1 & Hrun & _ & _ & Hkeys & Hpos & Hcell).
  exists arr, σ1. split; [done |]. split; [done |]. split; [done |].
  intros k. case_decide as Hk.
  - destruct (Hcell (Z.to_nat k)) as (l & Hl & Hc); [lia |].
    unfold bucket at 1.
    replace k with (Z.of_nat (Z.to_nat k)) at 1 by lia.
    rewrite (get_entries arr _ l) by done. simpl.
    by rewrite Hc, Z2Nat.id by lia.
  - apply bucket_None. unfold JsMap.keys.
    intros ([k' l] & -> & (i & -> & Hi)%entries_key)%list_elem_of_fmap.
    apply lookup_lt_Some in Hi. simpl in Hk. lia.
Qed.

Lemma toBucketSets_round_trip_witness :
  allocated store12 [(2, 1%nat); (-1, 0%nat)]
  ∧ uniqueKeys [(2, 1%nat); (-1, 0%nat)]
  ∧ fitsArray [(2, 1%nat); (-1, 0%nat)]
  ∧ ∃ arr σ1,
      toBucketSets [(2, 1%nat); (-1, 0%nat)] store12 = Ok (arr, σ1)
      ∧ Forall (λ k, k < Z.of_nat (length arr))
               (JsMap.keys [(2, 1%nat); (-1, 0%nat)])
      ∧ ([(2, 1%nat); (-1, 0%nat)] ≠ [] → (0 < length arr)%nat)
      ∧ ∀ k, bucket σ1 (JsArray.entries arr) k
             = if decide (0 ≤ k < Z.of_nat (length arr))
               then Some (default ∅
                            (bucket store12 [(2, 1%nat); (-1, 0%nat)] k))
               else None.
Proof.
  assert (H1 : allocated store12 [(2, 1%nat); (-1, 0%nat)])
    by (repeat constructor; simpl; lia).
  assert (H2 : uniqueKeys [(2, 1%nat); (-1, 0%nat)])
    by (apply (bool_decide_unpack (NoDup [2; -1])); reflexivity).
  assert (H3 : fitsArray [(2, 1%nat); (-1, 0%nat)])
    by (repeat constructor; simpl; reflexivity).
  split; [exact H1 |]. split; [exact H2 |]. split; [exact H3 |].
  exact (toBucketSets_round_trip store12 [(2, 1%nat); (-1, 0%nat)]
           H1 H2 H3).
Defined.

(** X13: [practice] on the array of [toBucketSets], for bucket numbers
    below 2^32 - 1.  The cards selected on a day are those of the buckets of
    the map with a number [k ≥ 0] such that [2^k] divides the day. *)
Theorem practice_after_toBucketSets (σ : heap) (m : BucketMap) (day : Z) :
  allocated σ m → uniqueKeys m → fitsArray m →
  ∃ arr σ1 due,
    toBucketSets m σ = Ok (arr, σ1)
    ∧ practice arr day σ1 = Ok (length σ1, σ1 ++ [due])
    ∧ ∀ card, card ∈ due
        ↔ ∃ k cs, 0 ≤ k ∧ bucket σ m k = Some cs
                  ∧ (2 ^ k | day) ∧ card ∈ cs.
Proof.
  intros Hal Hnd Hfit.
  destruct (dense_cells σ m Hal Hnd Hfit)
    as (arr & σ1 & Hrun & _ & Hal1 & Hkeys & _ & Hcell).
  exists arr, σ1, (dueIn σ1 day (JsArray.entries arr)).
  split; [done |]. split; [by apply practice_run |].
  intros card. rewrite due_divide by done. split.
  - intros (i & l & cs & Hi & Hl & Hdiv & Hc).
    destruct (Hcell i) as (l' & Hl' & Hc'); [by eapply lookup_lt_Some |].
    rewrite Hi in Hl'. injection Hl' as <-. rewrite Hl in Hc'.
    injection Hc' as ->.
    destruct (bucket σ m (Z.of_nat i)) as [cs|] eqn:Hcs; simpl in Hc;
      [| by apply elem_of_empty in Hc].
    exists (Z.of_nat i), cs. split; [lia | done].
  - intros (k & cs & Hk & Hcs & Hdiv & Hc).
    assert (Hlt : k < Z.of_nat (length arr)).
    { apply (proj1 (Forall_forall _ _) Hkeys). by eapply bucket_is_key. }
    destruct (Hcell (Z.to_nat k)) as (l & Hl & Hc'); [lia |].
    rewrite Z2Nat.id, Hcs in Hc' by done.
    exists (Z.to_nat k), l, cs. rewrite Z2Nat.id by done. done.
Qed.

Lemma practice_after_toBucketSets_witness :
  allocated store12 [(0, 0%nat); (2, 1%nat)]
  ∧ uniqueKeys [(0, 0%nat); (2, 1%nat)]
  ∧ fitsArray [(0, 0%nat); (2, 1%nat)]
  ∧ ∃ arr σ1 due,
      toBucketSets [(0, 0%nat); (2, 1%nat)] store12 = Ok (arr, σ1)
      ∧ practice arr 4 σ1 = Ok (length σ1, σ1 ++ [due])
      ∧ ∀ card, card ∈ due
          ↔ ∃ k cs, 0 ≤ k
                    ∧ bucket store12 [(0, 0%nat); (2, 1%nat)] k = Some cs
                    ∧ (2 ^ k | 4) ∧ card ∈ cs.
Proof.
  assert (H1 : allocated store12 [(0, 0%nat); (2, 1%nat)])
    by (repeat constructor; simpl; lia).
  assert (H2 : uniqueKeys [(0, 0%nat); (2, 1%nat)])
    by (apply (bool_decide_unpack (NoDup [0; 2])); reflexivity).
  assert (H3 : fitsArray [(0, 0%nat); (2, 1%nat)])
    by (repeat constructor; simpl; reflexivity).
  split; [exact H1 |]. split; [exact H2 |]. split; [exact H3 |].
  exact (practice_after_toBucketSets store12 [(0, 0%nat); (2, 1%nat)] 4
           H1 H2 H3).
Defined.

(** X14: [getBucketRange] on the array of [toBucketSets], for bucket
    numbers below 2^32 - 1.  The result is [undefined] when no bucket of the
    map with a number [k ≥ 0] holds a card; otherwise it is the smallest and
    the largest number of such a bucket. *)
Theorem range_after_toBucketSets (σ : heap) (m : BucketMap) :
  allocated σ m → uniqueKeys m → fitsArray m →
  let holdsCards k := 0 ≤ k ∧ ∃ cs, bucket σ m k = Some cs ∧ cs ≠ ∅ in
  ∃ arr σ1 r,
    toBucketSets m σ = Ok (arr, σ1)
    ∧ getBucketRange arr σ1 = Ok (r, σ1)
    ∧ match r with
      | None => ∀ k, ¬ holdsCards k
      | Some range =>
          minBucket range ≤ maxBucket range
          ∧ holdsCards (minBucket range)
          ∧ holdsCards (maxBucket range)
          ∧ ∀ k, holdsCards k → minBucket range ≤ k ≤ maxBucket range
      end.
Proof.
  intros Hal Hnd Hfit holdsCards.
  destruct (dense_cells σ m Hal Hnd Hfit)
    as (arr & σ1 & Hrun & _ & Hal1 & Hkeys & _ & Hcell).
  destruct (getBucketRange_run σ1 arr Hal1) as (r & Hr & Hspec).
  pose proof (populated_cells σ σ1 m arr) as Hpop.
  exists arr, σ1, r. split; [done |]. split; [done |].
  destruct r as [range|].
  - destruct Hspec as (Hle & Hmin & Hmax & Hall).
    split; [done |]. split; [by apply Hpop |]. split; [by apply Hpop |].
    intros k Hk. apply Hall. by apply Hpop.
  - intros k Hk. apply (Hspec k). by apply Hpop.
Qed.

Lemma range_after_toBucketSets_witness :
  allocated store12 [(1, 0%nat); (3, 2%nat); (2, 1%nat)]
  ∧ uniqueKeys [(1, 0%nat); (3, 2%nat); (2, 1%nat)]
  ∧ fitsArray [(1, 0%nat); (3, 2%nat); (2, 1%nat)]
  ∧ ∃ arr σ1 r,
      toBucketSets [(1, 0%nat); (3, 2%nat); (2, 1%nat)] store12
      = Ok (arr, σ1)
      ∧ getBucketRange arr σ1 = Ok (r, σ1)
      ∧ match r with
        | None =>
            ∀ k, ¬ (0 ≤ k
                    ∧ ∃ cs, bucket store12
                              [(1, 0%nat); (3, 2%nat); (2, 1%nat)] k = Some cs
                            ∧ cs ≠ ∅)
        | Some range =>
            minBucket range ≤ maxBucket range
            ∧ (0 ≤ minBucket range
               ∧ ∃ cs, bucket store12 [(1, 0%nat); (3, 2%nat); (2, 1%nat)]
                              (minBucket range) = Some cs
                       ∧ cs ≠ ∅)
            ∧ (0 ≤ maxBucket range
               ∧ ∃ cs, bucket store12 [(1, 0%nat); (3, 2%nat); (2, 1%nat)]
                              (maxBucket range) = Some cs
                       ∧ cs ≠ ∅)
            ∧ ∀ k, (0 ≤ k
                    ∧ ∃ cs, bucket store12
                              [(1, 0%nat); (3, 2%nat); (2, 1%nat)] k = Some cs
                            ∧ cs ≠ ∅)
                   → minBucket range ≤ k ≤ maxBucket range
        end.
Proof.
  assert (H1 : allocated store12 [(1, 0%nat); (3, 2%nat); (2, 1%nat)])
    by (repeat constructor; simpl; lia).
  assert (H2 : uniqueKeys [(1, 0%nat); (3, 2%nat); (2, 1%nat)])
    by (apply (bool_decide_unpack (NoDup [1; 3; 2])); reflexivity).
  assert (H3 : fitsArray [(1, 0%nat); (3, 2%nat); (2, 1%nat)])
    by (repeat constructor; simpl; reflexivity).
  split; [exact H1 |]. split; [exact H2 |]. split; [exact H3 |].
  exact (range_after_toBucketSets store12
           [(1, 0%nat); (3, 2%nat); (2, 1%nat)] H1 H2 H3).
Defined.

(** ** computeProgress: beyond the claim *)

Section ProgressMore.

Context (σ : heap).

Implicit Types (m : BucketMap) (k lo hi : Z) (l : loc).

Lemma cardsBetween_cons m k l lo hi :
  cardsBetween σ ((k, l) :: m) lo hi
  = (if decide (lo ≤ k ∧ k ≤ hi) then Z.of_nat (size (contents σ l)) else 0)
    + cardsBetween σ m lo hi.
Proof.
  unfold cardsBetween. rewrite filter_cons. cbn [fst].
  by destruct (decide (lo ≤ k ∧ k ≤ hi)).
Qed.

Lemma cardsOutside_cons m k l :
  cardsOutside σ ((k, l) :: m)
  = (if decide (0 ≤ k ∧ k ≤ 7) then 0 else Z.of_nat (size (contents σ l)))
    + cardsOutside σ m.
Proof.
  unfold cardsOutside. rewrite filter_cons. cbn [fst].
  destruct (decide (¬ (0 ≤ k ∧ k ≤ 7))) as [Hout|Hin];
    destruct (decide (0 ≤ k ∧ k ≤ 7)); done.
Qed.

(** Each card is counted once: in one of the three stages when the number
    of its bucket is within [0, 7], outside them otherwise. *)
Lemma stages_partition m :
  cardsBetween σ m 0 1 + cardsBetween σ m 2 4 + cardsBetween σ m 5 7
  + cardsOutside σ m
  = cardsInAll σ m.
Proof.
  induction m as [|[k l] m IH]; [done |].
  rewrite !cardsBetween_cons, cardsOutside_cons.
  unfold cardsInAll in *. cbn [foldr snd].
  repeat case_decide; lia.
Qed.

Lemma cardsOutside_none m :
  Forall (λ k, 0 ≤ k ≤ 7) (JsMap.keys m) → cardsOutside σ m = 0.
Proof.
  unfold JsMap.keys. induction m as [|[k l] m IH]; intros Hk; [done |].
  rewrite fmap_cons in Hk. apply Forall_cons_1 in Hk as [Hk Hm].
  cbn [fst] in Hk. rewrite cardsOutside_cons, IH by done.
  by rewrite decide_True.
Qed.

End ProgressMore.

(** X15: [computeProgress] counts each card once.  [totalCards] is the
    number of cards of all the buckets; there are three stages, and their
    card counts together with the number of cards in buckets outside
    [0, 7] make up [totalCards]: such cards are in the total and in no
    stage, and when every bucket number is within [0, 7] the stages add up
    to the total. *)
Theorem computeProgress_stage_sum (σ : heap) (m : BucketMap)
    (history : History) :
  allocated σ m →
  ∃ p,
    computeProgress m history σ = Ok (p, σ)
    ∧ totalCards p = cardsInAll σ m
    ∧ length (stageBreakdown p) = 3%nat
    ∧ sumZ cardCount (stageBreakdown p) + cardsOutside σ m = totalCards p
    ∧ (Forall (λ k, 0 ≤ k ≤ 7) (JsMap.keys m) →
       sumZ cardCount (stageBreakdown p) = totalCards p).
Proof.
  intros Hal. eexists. split; [by apply computeProgress_run |].
  cbn [totalCards stageBreakdown]. split; [done |]. split; [done |].
  unfold sumZ. simpl. pose proof (stages_partition σ m). split; [lia |].
  intros Hk. pose proof (cardsOutside_none σ m Hk). lia.
Qed.

Lemma computeProgress_stage_sum_witness :
  allocated store12 [(0, 0%nat); (9, 1%nat)]
  ∧ ∃ p,
      computeProgress [(0, 0%nat); (9, 1%nat)] [] store12 = Ok (p, store12)
      ∧ totalCards p = cardsInAll store12 [(0, 0%nat); (9, 1%nat)]
      ∧ length (stageBreakdown p) = 3%nat
      ∧ sumZ cardCount (stageBreakdown p)
        + cardsOutside store12 [(0, 0%nat); (9, 1%nat)]
        = totalCards p
      ∧ (Forall (λ k, 0 ≤ k ≤ 7) (JsMap.keys [(0, 0%nat); (9, 1%nat)]) →
         sumZ cardCount (stageBreakdown p) = totalCards p).
Proof.
  assert (H1 : allocated store12 [(0, 0%nat); (9, 1%nat)])
    by (repeat constructor; simpl; lia).
  split; [exact H1 |].
  exact (computeProgress_stage_sum store12 [(0, 0%nat); (9, 1%nat)] [] H1).
Defined.

(** ** getHint: every case *)

(** X17: what [getHint] does, case by case.  A usable hint is returned as it
    is.  Otherwise, for a front that is not empty, the result has the length
    of the front: its first code unit when the front has at most 3, its
    first 3 otherwise, then one mask character for each remaining one.  For
    an empty front, and then only, the call throws a [RangeError]. *)
Theorem getHint_cases (card : Flashcard) :
  (usableHint card ∧ ∃ h, hint card = Some h ∧ getHint card = Ok h)
  ∨ (¬ usableHint card ∧ front card = []
     ∧ getHint card = Throw RangeError)
  ∨ (¬ usableHint card ∧ front card ≠ []
     ∧ ∃ s, getHint card = Ok s
            ∧ length s = length (front card)
            ∧ s = take (if decide (length (front card) ≤ 3)%nat
                        then 1%nat else 3%nat) (front card)
                  ++ replicate
                       (length (front card)
                        - (if decide (length (front card) ≤ 3)%nat
                           then 1 else 3))%nat 42%N).
Proof.
  destruct (hasHint card) eqn:Hh.
  - left. apply hasHint_usable in Hh. split; [done |].
    pose proof Hh as (h & Hhint & _). exists h. split; [done |].
    by apply getHint_verbatim.
  - right. apply hasHint_unusable in Hh.
    destruct (decide (front card = [])) as [Hf|Hf].
    + left. split; [done |]. split; [done |]. by apply getHint_empty_front.
    + right. split; [done |]. split; [done |].
      pose proof (getHint_masked card Hh Hf) as Hm. cbv zeta in Hm.
      eexists. split; [exact Hm |]. split; [| done].
      by apply (getHint_length card).
Qed.

(** ** update: no two buckets of the result share a set *)

(** X18: every bucket of the result of [update] has a set of its own, also
    when two buckets of the input are one and the same [Set] object. *)
Theorem update_no_sharing (σ : heap) (m : BucketMap) (card : Flashcard)
    (difficulty : AnswerDifficulty) :
  allocated σ m → uniqueKeys m →
  ∃ nb σ', update m card difficulty σ = Ok (nb, σ') ∧ NoDup nb.*2.
Proof.
  intros Hal Hnd. eexists _, _. split; [by apply update_run |].
  rewrite fmap_app. unfold copies.
  rewrite snd_zip by (unfold JsMap.keys; by rewrite length_seq, length_fmap).
  case_decide; simpl.
  - rewrite app_nil_r. apply NoDup_seq.
  - apply NoDup_app. split; [apply NoDup_seq |].
    split; [| apply NoDup_singleton].
    intros x Hx%elem_of_seq ->%list_elem_of_singleton. lia.
Qed.

Lemma update_no_sharing_witness :
  allocated store12 [(1, 0%nat); (4, 0%nat)]
  ∧ uniqueKeys [(1, 0%nat); (4, 0%nat)]
  ∧ ∃ nb σ',
      update [(1, 0%nat); (4, 0%nat)] card2 Easy store12 = Ok (nb, σ')
      ∧ NoDup nb.*2.
Proof.
  assert (H1 : allocated store12 [(1, 0%nat); (4, 0%nat)])
    by (repeat constructor; simpl; lia).
  assert (H2 : uniqueKeys [(1, 0%nat); (4, 0%nat)])
    by (apply (bool_decide_unpack (NoDup [1; 4])); reflexivity).
  split; [exact H1 |]. split; [exact H2 |].
  exact (update_no_sharing store12 [(1, 0%nat); (4, 0%nat)] card2 Easy H1 H2).
Defined.
